(** * sdm-pack-k8: Kubernetes / Git spec synchronisation

    A shallow embedding of the synchronisation core of the pack:
    - [Application]  sync/application.ts  (matchSpec, specFileBasename,
                     resourceUpserted, resourceDeleted, syncResources)
    - [Diff]         sync/diff.ts         (parseNameStatusDiff)
    - [Clients]      kubernetes/clients.ts (patchWithHeaders)
    - [Secret]       the encrypt / decrypt / deriveKey functions
    - [Goals]        sync/goals.ts        (isSyncRepoCommit)
    - [KubeApp]      kubernetes/application.ts (upsertApplication,
                     deleteApplication)
    - [RepoSync]     sync/sync.ts and the startup listener (repoSync,
                     syncApply, sortSpecs, initialSync)
    - [GoalSync]     sync/goals.ts        (K8sSync)
    - [Ingress]      kubernetes/ingress.ts (upsertIngress, deleteIngress,
                     ingressTemplate)
    - [Goal]         deploy/goal.ts and deploy/environment.ts
                     (defaultDetails, defaultEnvironment,
                     getEnvironmentLabel)

    Strings are [string], except in [Secret], where the encoding of
    the characters matters and a string is the list of its UTF-16 code
    units; an [undefined] property is [None]; a thrown JavaScript error
    is a [JsError]; asynchronous functions are run to completion, so a
    rejected promise and a synchronous throw are both an [Err] result.
    Logging calls have no effect on any result and are left out. *)

From Stdlib Require Import String Ascii List Bool ZArith Lia Permutation
  Sorted Orders OrdersEx.
From stdpp Require Import base option list sorting strings gmap pretty.

(** ** JavaScript run-time notions shared by all modules *)

Module Js.

(** An [Error] object: [name] tells the class ("Error", "TypeError",
    "RangeError"), [message] is the mutable message property. *)
Record JsError : Type := mkError { errName : string; message : string }.

Definition Error (msg : string) : JsError := mkError "Error" msg.
Definition TypeError (msg : string) : JsError := mkError "TypeError" msg.
Definition RangeError (msg : string) : JsError := mkError "RangeError" msg.

(** [e.message = msg]: the same error object with a new message. *)
Definition setMessage (e : JsError) (msg : string) : JsError :=
  mkError (errName e) msg.

(** Result of running a function: it returns, it throws, or the run
    was cut short.  [X] is the type of reasons for cutting a run short:
    with [X := Empty_set] every run returns or throws. *)
Inductive res (X A : Type) : Type :=
| Ok (a : A)
| Err (e : JsError)
| Unfinished (x : X).
Arguments Ok {X A} a.
Arguments Err {X A} e.
Arguments Unfinished {X A} x.

Definition res_bind {X A B} (r : res X A) (k : A -> res X B) : res X B :=
  match r with
  | Ok a => k a
  | Err e => Err e
  | Unfinished x => Unfinished x
  end.

(** Code that reads and writes a store of type [S] and may throw.  What
    was written before a throw stays written, as in JavaScript. *)
Definition M (X S A : Type) : Type := S -> res X A * S.

Definition ret {X S A} (a : A) : M X S A := fun s => (Ok a, s).
Definition throw {X S A} (e : JsError) : M X S A := fun s => (Err e, s).
Definition bind {X S A B} (m : M X S A) (k : A -> M X S B) : M X S B :=
  fun s => match m s with
           | (Ok a, s') => k a s'
           | (Err e, s') => (Err e, s')
           | (Unfinished x, s') => (Unfinished x, s')
           end.
Definition try_catch {X S A} (m : M X S A) (h : JsError -> M X S A)
  : M X S A :=
  fun s => match m s with
           | (Ok a, s') => (Ok a, s')
           | (Err e, s') => h e s'
           | (Unfinished x, s') => (Unfinished x, s')
           end.
Definition get {X S} : M X S S := fun s => (Ok s, s).
Definition modify {X S} (f : S -> S) : M X S unit := fun s => (Ok tt, f s).
Definition lift {X S A} (r : res X A) : M X S A := fun s => (r, s).

(** Code whose every call returns or throws. *)
Abbreviation result := (res Empty_set).
Abbreviation Async := (M Empty_set).

(** [for (const x of xs) { await body(x); }] *)
Fixpoint for_of {X S A} (xs : list A) (body : A -> M X S unit) : M X S unit :=
  match xs with
  | [] => ret tt
  | x :: xs' => bind (body x) (fun _ => for_of xs' body)
  end.

(** [s.includes(t)] *)
Fixpoint includes (s t : string) : bool :=
  String.prefix t s ||
  match s with
  | EmptyString => false
  | String _ s' => includes s' t
  end.

(** [s.endsWith(t)], which is how the regular expressions anchored with
    [$] below are read. *)
Definition endsWith (s t : string) : bool :=
  let n := String.length s in
  let k := String.length t in
  (k <=? n)%nat && String.eqb (String.substring (n - k) k s) t.

Definition isLower (c : ascii) : bool :=
  (97 <=? nat_of_ascii c)%nat && (nat_of_ascii c <=? 122)%nat.
Definition isUpper (c : ascii) : bool :=
  (65 <=? nat_of_ascii c)%nat && (nat_of_ascii c <=? 90)%nat.
Definition lowerChar (c : ascii) : ascii :=
  if isUpper c then ascii_of_nat (nat_of_ascii c + 32) else c.

(** [s.toLowerCase()] on the one-byte characters a [string] holds. *)
Fixpoint toLowerCase (s : string) : string :=
  match s with
  | EmptyString => EmptyString
  | String c s' => String (lowerChar c) (toLowerCase s')
  end.

(** [xs.join(sep)] *)
Fixpoint join (sep : string) (xs : list string) : string :=
  match xs with
  | [] => ""
  | [x] => x
  | x :: xs' => x +:+ sep +:+ join sep xs'
  end.

(** [s.repeat(n)] for a count that is a natural number. *)
Fixpoint repeat (s : string) (n : nat) : string :=
  match n with
  | O => ""
  | S n' => s +:+ repeat s n'
  end.

(** A template literal prints an undefined value as "undefined". *)
Definition show (o : option string) : string := default "undefined" o.

(** Truthiness of a string-valued property that may be undefined. *)
Definition truthy (o : option string) : bool :=
  match o with
  | Some (String _ _) => true
  | _ => false
  end.

End Js.

Export Js.

Declare Scope js_scope.
Delimit Scope js_scope with js.
Notation "'do' x <- m ; k" := (bind m (fun x => k))
  (at level 10, x name, m at level 100, k at level 200) : js_scope.
Notation "'run' m ; k" := (bind m (fun _ => k))
  (at level 10, m at level 100, k at level 200) : js_scope.
Open Scope js_scope.

(** ** sync/application.ts *)

Module Application.

Record ObjectMeta : Type := mkMeta {
  name : option string;
  namespace : option string;
  labels : list (string * string)
}.

(** A Kubernetes resource object, also as parsed from a spec file
    ([DeepPartial<k8s.KubernetesObject>]): [apiVersion], [kind],
    [metadata] and, inside it, [name] and [namespace] may each be
    undefined.  [data] is the payload of a Secret (field name, base64
    value). *)
Record KubernetesObject : Type := mkObject {
  apiVersion : option string;
  kind : option string;
  metadata : option ObjectMeta;
  data : list (string * string)
}.

Record KubernetesDelete : Type := mkDelete {
  app_name : string;
  app_ns : string
}.

Inductive SyncAction : Type := upsert | delete.

(** A spec file of the sync repo and the object parsed from it.  A
    project file is addressed by its path. *)
Record ProjectFileSpec : Type := mkFileSpec {
  file : string;
  spec : KubernetesObject
}.

(** Calls made on the Git working copy. *)
Inductive GitCall : Type :=
| Commit (msg : string)
| Push.

(** The cloned sync repo: the files of the working copy, the files of
    the last commit and the Git calls made so far, oldest first. *)
Record GitProject : Type := mkProject {
  files : gmap string string;
  head : gmap string string;
  calls : list GitCall
}.

(** The store that [syncResources] runs on: the working copy and the
    identifiers that the coming calls of [guid()] return. *)
Record World : Type := mkWorld {
  project : GitProject;
  guids : list string
}.

(** What the module imports: the spec parser, the two serializers, the
    commit tag, the application slug, and whether Git refuses the commit
    or the push. *)
Record Env : Type := mkEnv {
  parseKubernetesSpecFile : string -> string -> result KubernetesObject;
  stringify : KubernetesObject -> string;
  safeDump : KubernetesObject -> string;
  commitTag : string;
  appName : KubernetesDelete -> string;
  commitError : option JsError;
  pushError : option JsError
}.

(** [sdm.k8s.options.sync] *)
Record SyncOptions : Type := mkSyncOptions {
  repo : option (string * string);
  credentials : string;
  secretKey : option string
}.

Definition nl : string := String (ascii_of_nat 10) "".

(** Runs on the working copy.  A run is cut short when the loop that
    draws random names has used up the identifiers of the store. *)
Abbreviation Sync := (M unit World).

(** Modelled from the spec: [k8sSpecGlob] of sync/diff.ts is missing;
    a spec file is a file at the root of the working copy with
    extension .json, .yaml or .yml. *)
Definition k8sSpecGlob (path : string) : bool :=
  negb (includes path "/") &&
  (endsWith path ".json" || endsWith path ".yaml" || endsWith path ".yml").

(** Project interface of the automation client. *)
Definition setFiles (f : gmap string string -> gmap string string)
    (w : World) : World :=
  mkWorld (mkProject (f (files (project w))) (head (project w))
             (calls (project w))) (guids w).

Definition addFile (path content : string) : Sync unit :=
  modify (setFiles (insert path content)).
Definition setContent (path content : string) : Sync unit :=
  modify (setFiles (insert path content)).
Definition deleteFile (path : string) : Sync unit :=
  modify (setFiles (base.delete path)).
Definition isClean : Sync bool :=
  fun w => (Ok (bool_decide (files (project w) = head (project w))), w).

Definition logCall (c : GitCall) (w : World) : World :=
  mkWorld (mkProject (files (project w)) (head (project w))
             (calls (project w) ++ [c])) (guids w).
Definition commitAll (w : World) : World :=
  mkWorld (mkProject (files (project w)) (files (project w))
             (calls (project w))) (guids w).

Definition commit (env : Env) (msg : string) : Sync unit :=
  run modify (logCall (Commit msg));
  match commitError env with
  | Some e => throw e
  | None => modify commitAll
  end.
Definition push (env : Env) : Sync unit :=
  run modify (logCall Push);
  match pushError env with
  | Some e => throw e
  | None => ret tt
  end.

(** [projectUtils.doWithFiles(syncProject, k8sSpecGlob, ...)] of
    [syncResources]: a file that does not parse is skipped. *)
Definition loadSpecs (env : Env) : Sync (list ProjectFileSpec) :=
  fun w =>
    (Ok (omap (fun pc : string * string =>
                 if k8sSpecGlob pc.1 then
                   match parseKubernetesSpecFile env pc.1 pc.2 with
                   | Ok o => Some (mkFileSpec pc.1 o)
                   | _ => None
                   end
                 else None)
              (map_to_list (files (project w)))), w).

(** [===] on two properties that may be undefined. *)
Definition strictEq (a b : option string) : bool := bool_decide (a = b).

(** [o.metadata.prop], for the property [prop] that is read first:
    reading a property of an undefined [metadata] throws. *)
Definition metadataFor {X} (prop : string) (o : KubernetesObject)
  : res X ObjectMeta :=
  match metadata o with
  | Some m => Ok m
  | None =>
      Err (TypeError ("Cannot read property '" +:+ prop +:+ "' of undefined"))
  end.

(** The predicate that [matchSpec] hands to [find]; [&&] reads the
    metadata only when apiVersion and kind are equal, first that
    of [a], then that of [b]. *)
Definition sameIdentity {X} (a b : KubernetesObject) : res X bool :=
  if strictEq (apiVersion a) (apiVersion b) && strictEq (kind a) (kind b)
  then
    res_bind (metadataFor "name" a) (fun ma =>
    res_bind (metadataFor "name" b) (fun mb =>
    Ok (strictEq (name ma) (name mb) &&
        strictEq (namespace ma) (namespace mb))))
  else Ok false.



(** [fileSpecs.find(fs => ...)]: the entries are tried in order, and a
    throw of the predicate ends the search. *)
Fixpoint matchSpec {X} (spec0 : KubernetesObject)
    (fileSpecs : list ProjectFileSpec) : res X (option ProjectFileSpec) :=
  match fileSpecs with
  | [] => Ok None
  | fs :: rest =>
      res_bind (sameIdentity spec0 (spec fs)) (fun found =>
      if found then Ok (Some fs) else matchSpec spec0 rest)
  end.

(** [kind.replace(/([a-z])([A-Z])/g, "$1-$2")] *)
Fixpoint pascalToKebab (s : string) : string :=
  match s with
  | String c1 (String c2 rest as s') =>
      if isLower c1 && isUpper c2
      then String c1 (String "-" (String c2 (pascalToKebab rest)))
      else String c1 (pascalToKebab s')
  | _ => s
  end.

(** A hyphen between every lower-case letter and the upper-case letter
    that follows it. *)
Fixpoint hyphenate (s : string) : string :=
  match s with
  | String c1 (String c2 _ as s') =>
      String c1 (if isLower c1 && isUpper c2 then String "-" (hyphenate s')
                 else hyphenate s')
  | _ => s
  end.

Definition specFileBasename {X} (resource : KubernetesObject)
  : res X string :=
  res_bind (metadataFor "namespace" resource) (fun metadata0 =>
  let ns := if truthy (namespace metadata0)
            then show (namespace metadata0) +:+ "-" else "" in
  match kind resource with
  | None => Err (TypeError "Cannot read property 'replace' of undefined")
  | Some k =>
      Ok (toLowerCase (ns +:+ show (name metadata0) +:+ "-" +:+
                       pascalToKebab k))
  end).

Definition stringifySpec (env : Env) (resource : KubernetesObject) : string :=
  stringify env resource +:+ nl.

(** [guid().split("-")[0]] *)
Fixpoint firstSegment (g : string) : string :=
  match g with
  | EmptyString => EmptyString
  | String c g' => if Ascii.eqb c "-" then EmptyString
                   else String c (firstSegment g')
  end.

(** The [while (await p.getFile(specPath))] loop of [resourceUpserted],
    run on the identifiers [gs] that [guid()] is going to return:
    [p.getFile] is the lookup in the files [fs] of the working copy.
    The loop has no result when the identifiers run out. *)
Fixpoint freshSpecPath (fs : gmap string string) (specRoot specExt : string)
    (gs : list string) (specPath : string) : option (string * list string) :=
  match fs !! specPath with
  | None => Some (specPath, gs)
  | Some _ =>
      match gs with
      | [] => None
      | g :: gs' =>
          freshSpecPath fs specRoot specExt gs'
            (specRoot +:+ "-" +:+ firstSegment g +:+ specExt)
      end
  end.

Definition isYamlPath (path : string) : bool :=
  endsWith path ".yaml" || endsWith path ".yml".

Definition resourceUpserted (env : Env) (resource : KubernetesObject)
    (fs : option ProjectFileSpec) : Sync unit :=
  match fs with
  | Some fs =>
      let specString := if isYamlPath (file fs) then safeDump env resource
                        else stringifySpec env resource in
      setContent (file fs) specString
  | None =>
      do specRoot <- lift (specFileBasename resource);
      let specExt := ".json" in
      do specPath <-
        (fun w => match freshSpecPath (files (project w)) specRoot specExt
                          (guids w) (specRoot +:+ specExt) with
                  | Some (path, gs) => (Ok path, mkWorld (project w) gs)
                  | None => (Unfinished tt, mkWorld (project w) [])
                  end);
      addFile specPath (stringifySpec env resource)
  end.

Definition resourceDeleted (resource : KubernetesObject)
    (fs : option ProjectFileSpec) : Sync unit :=
  match fs with
  | Some fs => deleteFile (file fs)
  | None => ret tt
  end.

Definition commitMessage (env : Env) (syncVerb : string)
    (app : KubernetesDelete) : string :=
  syncVerb +:+ " specs for " +:+ appName env app +:+ nl +:+ nl +:+
  "[atomist:generated] " +:+ commitTag env +:+ nl.

Definition syncResources (env : Env) (app : KubernetesDelete)
    (resources : list KubernetesObject) (action : SyncAction) : Sync unit :=
  do specs <- loadSpecs env;
  let '(syncAction, syncVerb) :=
    match action with
    | delete => (resourceDeleted, "Delete")
    | upsert => (resourceUpserted env, "Update")
    end in
  run for_of resources
        (fun resource =>
           do fileSpec <- lift (matchSpec resource specs);
           syncAction resource fileSpec);
  do clean <- isClean;
  if clean then ret tt
  else
    try_catch
      (run commit env (commitMessage env syncVerb app); push env)
      (fun e =>
         throw (setMessage e
           ("Failed to commit and push resource changes to sync repo: " +:+
            message e))).

(** [syncApplication]: the project loader hands the clone [w] of the
    sync repo to [syncResources]. *)
Definition syncApplication (env : Env) (syncOptions : option SyncOptions)
    (app : KubernetesDelete) (resources : list KubernetesObject)
    (action : SyncAction) : Sync unit :=
  let slug := appName env app in
  match syncOptions with
  | None => ret tt
  | Some opts =>
      match repo opts with
      | None => ret tt
      | Some (owner, rname) =>
          if (List.length resources <? 1)%nat then ret tt
          else
            try_catch (syncResources env app resources action)
              (fun e =>
                 throw (setMessage e
                   ("Failed to perform sync resources from " +:+ slug +:+
                    " to sync repo " +:+ owner +:+ "/" +:+ rname +:+ ": " +:+
                    message e)))
      end
  end.

(** [syncResources] in two parts. *)

(** The first part of [syncResources]: load the specs and handle each
    resource of the batch. *)
Definition processResources (env : Env) (resources : list KubernetesObject)
    (action : SyncAction) : Sync unit :=
  do specs <- loadSpecs env;
  for_of resources
    (fun resource =>
       do fileSpec <- lift (matchSpec resource specs);
       match action with
       | delete => resourceDeleted resource fileSpec
       | upsert => resourceUpserted env resource fileSpec
       end).

Definition syncVerb (action : SyncAction) : string :=
  match action with delete => "Delete" | upsert => "Update" end.

(** The second part: commit and push. *)
Definition commitAndPush (env : Env) (app : KubernetesDelete)
    (action : SyncAction) : Sync unit :=
  try_catch
    (run commit env (commitMessage env (syncVerb action) app); push env)
    (fun e =>
       throw (setMessage e
         ("Failed to commit and push resource changes to sync repo: " +:+
          message e))).

End Application.

(** ** sync/diff.ts *)

Module Diff.

(** [PushDiff.change] *)
Inductive ChangeType : Type := apply | delete.

Record PushDiff : Type := mkPushDiff {
  sha : string;
  change : ChangeType;
  path : string
}.

Definition NUL : ascii := ascii_of_nat 0.

(** [s.split(sep)] for a one-character separator. *)
Fixpoint split (sep : ascii) (s : string) : list string :=
  match s with
  | EmptyString => [EmptyString]
  | String c s' =>
      if Ascii.eqb c sep then EmptyString :: split sep s'
      else match split sep s' with
           | t :: ts => String c t :: ts
           | [] => [String c EmptyString]
           end
  end.

(** What a status field stands for: the change, and whether two paths
    (old, new) follow it as for a copy or a rename. *)
Definition statusChange (status : string) : option (ChangeType * bool) :=
  match status with
  | String c _ =>
      if Ascii.eqb c "D" then Some (delete, false)
      else if Ascii.eqb c "A" || Ascii.eqb c "M" then Some (apply, false)
      else if Ascii.eqb c "C" || Ascii.eqb c "R" then Some (apply, true)
      else None
  | EmptyString => None
  end.

Definition specChange (sha0 : string) (c : ChangeType) (p : string)
  : list PushDiff :=
  if Application.k8sSpecGlob p then [mkPushDiff sha0 c p] else [].

Fixpoint parseFields (sha0 : string) (fields : list string) : list PushDiff :=
  match fields with
  | status :: p :: rest =>
      match statusChange status with
      | Some (c, false) => specChange sha0 c p ++ parseFields sha0 rest
      | Some (c, true) =>
          match rest with
          | newPath :: rest' =>
              specChange sha0 c newPath ++ parseFields sha0 rest'
          | [] => []
          end
      | None => parseFields sha0 rest
      end
  | _ => []
  end.

Definition isDelete (d : PushDiff) : bool :=
  match change d with delete => true | apply => false end.

Section Ordered.

(** The comparison of two paths ([a.path.localeCompare(b.path) <= 0]). *)
Variable pathLeb : string -> string -> bool.

Definition byPath : relation PushDiff :=
  fun a b => pathLeb (path a) (path b) = true.

#[export] Instance byPath_dec (a b : PushDiff) : Decision (byPath a b).
Proof. unfold byPath. apply _. Defined.

(** Modelled from the spec: [parseNameStatusDiff] of sync/diff.ts is
    missing, only its tests are present.  The fields of the
    NUL-delimited name-status output are read in pairs of status and
    path; status D gives a "delete", A and M (and the new path of C and
    R) an "apply"; paths outside the spec glob are dropped; the records
    are sorted by path.  The tests ("should parse valid input", "should
    sort the paths") put the deletes of a commit before its applies, so
    the sorted records are split by change, deletes first. *)
Definition parseNameStatusDiff (sha0 diff : string) : list PushDiff :=
  let changes := parseFields sha0 (split NUL diff) in
  let sorted := merge_sort byPath changes in
  List.filter isDelete sorted ++
  List.filter (fun d => negb (isDelete d)) sorted.

End Ordered.

(** Paths compared character by character. *)
Definition codeUnitLeb (a b : string) : bool := String.leb a b.

(** The entries of a name-status diff of additions, modifications and
    deletions, and the text [git diff --name-status -z] prints for
    them: each entry is its status letter and its path, each followed
    by NUL. *)
Inductive Status : Type := Added | Modified | Deleted.

Definition statusField (st : Status) : string :=
  match st with Added => "A" | Modified => "M" | Deleted => "D" end.

Definition render (entries : list (Status * string)) : string :=
  fold_right
    (fun e rest => statusField e.1 +:+ String NUL (e.2 +:+ String NUL rest))
    EmptyString entries.

Definition changeOfStatus (st : Status) : ChangeType :=
  match st with Deleted => delete | _ => apply end.

(** The records of the entries that are spec files, in diff order. *)
Definition records (sha0 : string) (entries : list (Status * string))
  : list PushDiff :=
  flat_map (fun e => specChange sha0 (changeOfStatus e.1) e.2) entries.

Fixpoint nulFree (s : string) : bool :=
  match s with
  | EmptyString => true
  | String c s' => negb (Ascii.eqb c NUL) && nulFree s'
  end.

End Diff.

(** ** kubernetes/clients.ts *)

Module Clients.

(** An API client object: its [defaultHeaders] and everything else. *)
Record Api (O : Type) : Type := mkApi {
  defaultHeaders : gmap string string;
  others : O
}.
Arguments mkApi {O} _ _.
Arguments defaultHeaders {O} _.
Arguments others {O} _.

Definition setDefaultHeaders {O} (h : gmap string string) (api : Api O)
  : Api O :=
  mkApi h (others api).

Definition patchContentType : string :=
  "application/strategic-merge-patch+json".

Section Patch.

Context {O R Val : Type}.

(** [patcher.apply(api, args)] runs the method with [this = api], so
    the client object is the store of the computation. *)
Definition patchWithHeaders (patcher : list Val -> Async (Api O) R)
    (args : list Val) : Async (Api O) R :=
  do api <- get;
  let oldDefaultHeaders := defaultHeaders api in
  run modify (setDefaultHeaders
        (<["Content-Type" := "application/strategic-merge-patch+json"]>
           (defaultHeaders api)));
  do returnValue <- patcher args;
  run modify (setDefaultHeaders oldDefaultHeaders);
  ret returnValue.

(** The arguments of a method as one array value. *)
Variable array : list Val -> Val.

(** Body of every overriding method of the four [_Patch] classes:
    [patchX(...args) { return patchWithHeaders(this, super.patchX, args); }].
    The array [args] is the single rest argument of [patchWithHeaders]. *)
Definition patchMethod (superPatch : list Val -> Async (Api O) R)
    (args : list Val) : Async (Api O) R :=
  patchWithHeaders superPatch [array args].

End Patch.

End Clients.

(** ** encrypt, decrypt and deriveKey *)

Module Secret.

Definition Buffer : Type := list Byte.byte.

(** Here the characters of a string matter ([length], [repeat],
    [substring] and the UTF-8 encoding): a string is the list of its
    UTF-16 code units, each below 65536. *)
Definition JsString : Type := list N.

(** The code units of a string of one-byte characters. *)
Definition units (s : string) : JsString :=
  List.map N_of_ascii (list_ascii_of_string s).

Definition isHighSurrogate (u : N) : bool :=
  (0xD800 <=? u)%N && (u <=? 0xDBFF)%N.
Definition isLowSurrogate (u : N) : bool :=
  (0xDC00 <=? u)%N && (u <=? 0xDFFF)%N.

(** A string without unpaired surrogate: every high surrogate is
    followed by a low one and every low surrogate follows a high
    one. *)
Fixpoint wellFormed (t : JsString) : bool :=
  match t with
  | [] => true
  | u :: t' =>
      if isHighSurrogate u then
        match t' with
        | l :: t'' => isLowSurrogate l && wellFormed t''
        | [] => false
        end
      else negb (isLowSurrogate u) && (u <? 0x10000)%N && wellFormed t'
  end.

(** The functions of Node's [crypto] and [Buffer] that are called. *)
Record NodeCrypto : Type := mkNodeCrypto {
  (** [crypto.scrypt(password, salt, keylen)] *)
  scrypt : JsString -> JsString -> nat -> Buffer;
  (** [createCipheriv("aes-256-cbc", key, iv)], [update], [final] *)
  cipheriv : Buffer -> Buffer -> Buffer -> result Buffer;
  (** [createDecipheriv("aes-256-cbc", key, iv)], [update], [final] *)
  decipheriv : Buffer -> Buffer -> Buffer -> result Buffer;
  (** [Buffer.from(s, "utf8")] and [buf.toString("utf8")] *)
  utf8Bytes : JsString -> Buffer;
  utf8String : Buffer -> JsString;
  (** [buf.toString("base64")] and [Buffer.from(s, "base64")] *)
  base64String : Buffer -> JsString;
  base64Bytes : JsString -> Buffer
}.

(** What is relied on: scrypt returns as many bytes as asked for;
    AES-256-CBC accepts a 32-byte key with a 16-byte IV and deciphering
    with the same key and IV gives the plain text back; decoding UTF-8
    undoes encoding a string without unpaired surrogate (an unpaired
    surrogate is encoded as U+FFFD and does not come back); decoding
    base64 undoes encoding. *)
Record NodeCryptoLaws (lib : NodeCrypto) : Prop := mkLaws {
  scrypt_length : forall p s n, List.length (scrypt lib p s n) = n;
  cipher_inverse : forall k iv m,
    List.length k = 32 -> List.length iv = 16 ->
    exists c, cipheriv lib k iv m = Ok c /\ decipheriv lib k iv c = Ok m;
  utf8_inverse : forall s,
    wellFormed s = true -> utf8String lib (utf8Bytes lib s) = s;
  base64_inverse : forall b, base64Bytes lib (base64String lib b) = b
}.

Definition hexDigit (n : nat) : N :=
  if (n <? 10)%nat then N.of_nat (48 + n) else N.of_nat (87 + n).

(** [buf.toString("hex")] *)
Fixpoint toHex (b : Buffer) : JsString :=
  match b with
  | [] => []
  | x :: b' =>
      hexDigit (Byte.to_nat x / 16) :: hexDigit (Byte.to_nat x mod 16) ::
      toHex b'
  end.

(** [s.repeat(n)] for a count that is a natural number. *)
Fixpoint repeat (s : JsString) (n : nat) : JsString :=
  match n with
  | O => []
  | S n' => s ++ repeat s n'
  end.

(** [s.substring(0, n)] *)
Definition substring0 (n : nat) (s : JsString) : JsString := firstn n s.

Section WithCrypto.

Variable lib : NodeCrypto.

(** [key.repeat(Math.floor(saltLength / key.length) + 1)]: the count is
    Infinity for the empty key, and [repeat] then throws. *)
Definition deriveKey (key : JsString) (length : nat) : result Buffer :=
  let saltLength := 16 in
  if (List.length key =? 0)%nat
  then Err (RangeError "Invalid count value: Infinity")
  else
    let salt := substring0 saltLength
                  (repeat key (saltLength / List.length key + 1)) in
    Ok (scrypt lib key salt length).

Definition encrypt (text key : JsString) : result JsString :=
  res_bind (deriveKey key 32) (fun derivedKey =>
  res_bind (deriveKey (toHex derivedKey) 16) (fun iv =>
  res_bind (cipheriv lib derivedKey iv (utf8Bytes lib text)) (fun encrypted =>
  Ok (base64String lib encrypted)))).

Definition decrypt (text key : JsString) : result JsString :=
  res_bind (deriveKey key 32) (fun derivedKey =>
  res_bind (deriveKey (toHex derivedKey) 16) (fun iv =>
  let encryptedText := base64Bytes lib text in
  res_bind (decipheriv lib derivedKey iv encryptedText) (fun decrypted =>
  Ok (utf8String lib decrypted)))).

(** The salt of a key. *)
Definition saltOf (key : JsString) : JsString :=
  substring0 16 (repeat key (16 / List.length key + 1)).

(** The key and the initialization vector that [encrypt] and [decrypt]
    both derive from the passphrase. *)
Definition derivedKeyOf (key : JsString) : Buffer :=
  scrypt lib key (saltOf key) 32.
Definition ivOf (key : JsString) : Buffer :=
  scrypt lib (toHex (derivedKeyOf key)) (saltOf (toHex (derivedKeyOf key))) 16.

End WithCrypto.

End Secret.

(** ** sync/goals.ts *)

Module Goals.

(** [ProviderType] of the automation client is a numeric enumeration. *)
Definition ProviderType : Type := N.

Record RemoteRepoRef : Type := mkRemoteRepoRef {
  providerType : ProviderType;
  owner : string;
  repo : string;
  branch : option string
}.

(** The sync repo as written in the configuration by the user. *)
Record SyncRepoRef : Type := mkSyncRepoRef {
  sync_owner : string;
  sync_repo : string;
  sync_branch : option string
}.

(** [SyncRepoRef | RemoteRepoRef] *)
Inductive SyncRepo : Type :=
| Unresolved (r : SyncRepoRef)
| Resolved (r : RemoteRepoRef).

Record KubernetesSyncOptions : Type := mkSyncOptions {
  sync_repo_ref : option SyncRepo
}.

(** The part of the SDM configuration that is read:
    [configuration.name] and [configuration.sdm.k8s.options.sync]. *)
Record Configuration : Type := mkConfiguration {
  sdm_name : string;
  sync : option KubernetesSyncOptions
}.

Record Commit : Type := mkCommit { message : string }.

(** The push a push test is invoked on: [p.id] and [p.push.commits]. *)
Record PushListenerInvocation : Type := mkPush {
  id : RemoteRepoRef;
  commits : list Commit
}.

(** Modelled from the spec: [isRemoteRepo] of sync/repo.ts is missing;
    it tells whether the configured sync target was resolved to a
    concrete remote reference. *)
Definition isRemoteRepo (r : option SyncRepo) : option RemoteRepoRef :=
  match r with
  | Some (Resolved rr) => Some rr
  | _ => None
  end.

(** The push is one to the sync repo. *)
Definition sameRepo (p : PushListenerInvocation) (rr : RemoteRepoRef) : Prop :=
  providerType (id p) = providerType rr /\
  owner (id p) = owner rr /\
  repo (id p) = repo rr /\
  branch (id p) = branch rr.

Section WithTag.

(** [commitTag] of sync/tag.ts and [stringify]. *)
Variable commitTag : Configuration -> string.
Variable stringify : option SyncRepo -> string.

(** [_.get(sdm, "configuration.sdm.k8s.options.sync.repo")] *)
Definition configuredRepo (sdm : Configuration) : option SyncRepo :=
  match sync sdm with
  | Some opts => sync_repo_ref opts
  | None => None
  end.

(** The function handed to [pushTest("IsSyncRepoCommit", ...)].  It
    reads the configuration when it is run, so the configuration [sdm]
    is the one at the time of the push. *)
Definition isSyncRepoCommitTest (sdm : Configuration)
    (p : PushListenerInvocation) : result bool :=
  let repo0 := configuredRepo sdm in
  match isRemoteRepo repo0 with
  | None =>
      Err (Error
        ("SyncRepoRef did not get converted to proper RemoteRepoRef at startup: "
         +:+ stringify repo0))
  | Some rr =>
      if bool_decide (providerType (id p) = providerType rr) &&
         bool_decide (owner (id p) = owner rr) &&
         bool_decide (repo (id p) = repo rr) &&
         bool_decide (branch (id p) = branch rr)
      then
        let tag := commitTag sdm in
        Ok (existsb (fun c => negb (includes (message c) tag)) (commits p))
      else Ok false
  end.

(** [isSyncRepoCommit]: no push test without a configured sync repo. *)
Definition isSyncRepoCommit (sdm : Configuration)
  : option (Configuration -> PushListenerInvocation -> result bool) :=
  match configuredRepo sdm with
  | None => None
  | Some _ => Some isSyncRepoCommitTest
  end.

End WithTag.

End Goals.

(** ** kubernetes/application.ts *)

Module KubeApp.

Record KubernetesDelete : Type := mkDelete {
  name : string;
  ns : string
}.

(** The message a failed deletion contributes, and the objects a
    deletion that returned contributes. *)
Definition failure {A} (prefix : string) (r : result A) : list string :=
  match r with
  | Err e => [prefix +:+ Js.message e]
  | _ => []
  end.

Definition deletedBy {A} (r : result (list A)) : list A :=
  match r with
  | Ok l => l
  | _ => []
  end.

Section WithCluster.

(** [Cluster] is the state of the Kubernetes cluster, [Obj] a resource
    object, [KubeConfig] and [Clients] what [loadKubeConfig] and
    [makeApiClients] return. *)
Context {Cluster Obj KubeConfig Clients : Type}.

(** [{ ...del, clients }] *)
Record DeleteRequest : Type := mkRequest {
  del : KubernetesDelete;
  clients : Clients
}.

(** [{ ...app, sdmFulfiller, clients }] *)
Record ResourceRequest : Type := mkResourceRequest {
  app : KubernetesDelete;
  sdmFulfiller : string;
  app_clients : Clients
}.

(** A response of the API: [body] may be missing. *)
Record Response : Type := mkResponse { body : option Obj }.

(** The functions of the sibling modules and of the environment.  An
    upsert of one resource may return undefined, as [upsertService] and
    [upsertIngress] do without a port. *)
Record Imports : Type := mkImports {
  loadKubeConfig : result KubeConfig;
  makeApiClients : KubeConfig -> Clients;
  deleteIngress : DeleteRequest -> Async Cluster (option Obj);
  deleteDeployment : DeleteRequest -> Async Cluster (option Obj);
  deleteSecrets : DeleteRequest -> Async Cluster (list (option Obj));
  deleteService : DeleteRequest -> Async Cluster (option Obj);
  deleteRbac : DeleteRequest -> Async Cluster (list (option Obj));
  upsertNamespace : ResourceRequest -> Async Cluster (option Response);
  upsertRbac : ResourceRequest -> Async Cluster (list (option Response));
  upsertService : ResourceRequest -> Async Cluster (option Response);
  upsertSecrets : ResourceRequest -> Async Cluster (list Response);
  upsertDeployment : ResourceRequest -> Async Cluster (option Response);
  upsertIngress : ResourceRequest -> Async Cluster (option Response);
  stringifyFiltered : DeleteRequest + ResourceRequest -> string
}.

Variable imp : Imports.

(** [reqString(req)] is [stringify(req, reqFilter)]. *)
Definition reqString (req : DeleteRequest + ResourceRequest) : string :=
  stringifyFiltered imp req.

(** [xs.filter(x => !!x)] on objects that may be undefined. *)
Definition defined (xs : list (option Obj)) : list Obj :=
  omap (fun x => x) xs.

(** [result.body]: reading [body] of an undefined result throws. *)
Definition bodyOf (r : option Response) : Async Cluster (option Obj) :=
  match r with
  | Some r => ret (body r)
  | None => throw (TypeError "Cannot read property 'body' of undefined")
  end.

Definition upsertApplication (a : KubernetesDelete) (fulfiller : string)
  : Async Cluster (list Obj) :=
  do config <-
    try_catch (lift (loadKubeConfig imp))
      (fun e =>
         throw (setMessage e
           ("Failed to load Kubernetes config to deploy " +:+ ns a +:+ "/" +:+
            name a +:+ ": " +:+ message e)));
  let clients0 := makeApiClients imp config in
  let req := mkResourceRequest a fulfiller clients0 in
  try_catch
    (do nsResult <- upsertNamespace imp req;
     do nsBody <- bodyOf nsResult;
     let k8sResources := [nsBody] in
     do rbacResult <- upsertRbac imp req;
     let k8sResources :=
       k8sResources ++ List.map body (omap (fun r => r) rbacResult) in
     do svcResult <- upsertService imp req;
     do svcBody <- bodyOf svcResult;
     let k8sResources := k8sResources ++ [svcBody] in
     do secResult <- upsertSecrets imp req;
     let k8sResources := k8sResources ++ List.map body secResult in
     do depResult <- upsertDeployment imp req;
     do depBody <- bodyOf depResult;
     let k8sResources := k8sResources ++ [depBody] in
     do ingResult <- upsertIngress imp req;
     do ingBody <- bodyOf ingResult;
     let k8sResources := k8sResources ++ [ingBody] in
     ret (defined k8sResources))
    (fun e =>
       throw (setMessage e
         ("Failed to upsert '" +:+ reqString (inr req) +:+ "': " +:+ message e))).

(** One [try { deleted.push(...) } catch (e) { e.message = ...; errs.push(e); }]
    block; [acc] holds [deleted] and [errs]. *)
Definition attempt (m : Async Cluster (list (option Obj))) (prefix : string)
    (acc : list (option Obj) * list JsError)
  : Async Cluster (list (option Obj) * list JsError) :=
  try_catch
    (do d <- m; ret (acc.1 ++ d, acc.2))
    (fun e => ret (acc.1, acc.2 ++ [setMessage e (prefix +:+ message e)])).

(** [deleted.push(await m)] pushes one object, [deleted.push(...(await m))]
    each object of an array. *)
Definition one (m : Async Cluster (option Obj))
  : Async Cluster (list (option Obj)) :=
  do d <- m; ret [d].

Definition deleteApplication (d : KubernetesDelete) : Async Cluster (list Obj) :=
  let slug := ns d +:+ "/" +:+ name d in
  do config <-
    try_catch (lift (loadKubeConfig imp))
      (fun e => throw (TypeError "e.message is not a function"));
  let clients0 := makeApiClients imp config in
  let req := mkRequest d clients0 in
  let acc := ([], []) in
  do acc <- attempt (one (deleteIngress imp req))
              ("Failed to delete ingress " +:+ slug +:+ ": ") acc;
  do acc <- attempt (one (deleteDeployment imp req))
              ("Failed to delete deployment " +:+ slug +:+ ": ") acc;
  do acc <- attempt (deleteSecrets imp req)
              ("Failed to delete secrets of " +:+ slug +:+ ": ") acc;
  do acc <- attempt (one (deleteService imp req))
              ("Failed to delete service " +:+ slug +:+ ": ") acc;
  do acc <- attempt (deleteRbac imp req)
              ("Failed to delete RBAC resources for " +:+ slug +:+ ": ") acc;
  let '(deleted, errs) := acc in
  if (0 <? List.length errs)%nat then
    let msg := "Failed to delete application '" +:+ reqString (inl req) +:+
               "': " +:+ join "; " (List.map Js.message errs) in
    throw (Error msg)
  else ret (defined deleted).

(** The upserts of [upsertApplication] in their order, each with the
    bodies it adds to [k8sResources]. *)
Definition upsertSteps (req : ResourceRequest)
  : list (Async Cluster (list (option Obj))) :=
  [ (do r <- upsertNamespace imp req; do b <- bodyOf r; ret [b]);
    (do r <- upsertRbac imp req; ret (List.map body (omap (fun x => x) r)));
    (do r <- upsertService imp req; do b <- bodyOf r; ret [b]);
    (do r <- upsertSecrets imp req; ret (List.map body r));
    (do r <- upsertDeployment imp req; do b <- bodyOf r; ret [b]);
    (do r <- upsertIngress imp req; do b <- bodyOf r; ret [b]) ].

(** Steps run one after the other until one throws. *)
Fixpoint inOrder (steps : list (Async Cluster (list (option Obj))))
  : Async Cluster (list (option Obj)) :=
  match steps with
  | [] => ret []
  | m :: rest => do a <- m; do b <- inOrder rest; ret (a ++ b)
  end.

End WithCluster.

End KubeApp.

(** ** sync/sync.ts and the initial sync of the startup listener *)

Module RepoSync.

(** A file of the project: its path and its content. *)
Record ProjectFile : Type := mkFile {
  path : string;
  content : string
}.

(** [try { m } finally { c }]: [c] runs whether [m] returns or throws;
    the outcome is that of [m] unless [c] throws. *)
Definition finally {S A} (m : Async S A) (c : Async S unit) : Async S A :=
  fun s =>
    match m s with
    | (r, s1) =>
        match c s1 with
        | (Ok _, s2) => (r, s2)
        | (Err e, s2) => (Err e, s2)
        | (Unfinished x, s2) => (Unfinished x, s2)
        end
    end.

Section WithCluster.

(** [World] is the state that applying a spec and disposing of the
    clone act on. *)
Context {World : Type}.

(** What sync.ts imports: the spec parser, [decryptSecret],
    [applySpec], [errMsg], the order of [localeCompare]
    ([a.localeCompare(b) <= 0]) and the error a file stream may end
    with. *)
Record Imports : Type := mkImports {
  parseKubernetesSpecFile : ProjectFile -> result Application.KubernetesObject;
  decryptSecret : Application.KubernetesObject -> string -> result Application.KubernetesObject;
  applySpec : Application.KubernetesObject -> Async World unit;
  errMsg : JsError -> string;
  pathLeb : string -> string -> bool;
  streamError : option JsError
}.

Variable imp : Imports.

Definition byPath : relation ProjectFile :=
  fun a b => pathLeb imp (path a) (path b) = true.

#[export] Instance byPath_dec (a b : ProjectFile) : Decision (byPath a b).
Proof. unfold byPath. apply _. Defined.

(** [syncRepo.streamFiles(k8sSpecGlob)]: the spec files of the project. *)
Definition streamFiles (files : gmap string string) : list ProjectFile :=
  List.map (fun pc => mkFile pc.1 pc.2)
    (List.filter (fun pc : string * string => Application.k8sSpecGlob pc.1)
       (map_to_list files)).

Definition sortSpecs (files : gmap string string) : result (list ProjectFile) :=
  match streamError imp with
  | Some e => Err e
  | None => Ok (merge_sort byPath (streamFiles files))
  end.

(** The body of the loop of [syncApply]: parse, decrypt a Secret when a
    secret key is configured, apply. *)
Definition applyFile (opts : option Application.SyncOptions) (specFile : ProjectFile)
  : Async World unit :=
  do spec <- lift (parseKubernetesSpecFile imp specFile);
  do spec <-
    match opts with
    | Some o =>
        if bool_decide (Application.kind spec = Some "Secret") && truthy (Application.secretKey o)
        then lift (decryptSecret imp spec (show (Application.secretKey o)))
        else ret spec
    | None => ret spec
    end;
  applySpec imp spec.

(** The loop of [syncApply]; [errors] is the array of the same name. *)
Fixpoint applyEach (opts : option Application.SyncOptions) (specFiles : list ProjectFile)
    (errors : list JsError) : Async World (list JsError) :=
  match specFiles with
  | [] => ret errors
  | specFile :: rest =>
      do errors <-
        try_catch
          (run applyFile opts specFile; ret errors)
          (fun e =>
             ret (errors ++
                  [setMessage e
                     ("Failed to apply '" +:+ path specFile +:+ "': " +:+
                      errMsg imp e)]));
      applyEach opts rest errors
  end.

Definition syncApply (opts : option Application.SyncOptions) (files : gmap string string)
  : Async World unit :=
  do specFiles <- lift (sortSpecs files);
  do errors <- applyEach opts specFiles [];
  match errors with
  | [] => ret tt
  | e0 :: _ =>
      throw (setMessage e0
        ("There were errors during repo sync: " +:+
         join "; " (List.map message errors)))
  end.

(** The project loader and the lifecycle of the context:
    [doWithProject] clones the repo and runs the action on its files,
    [dispose] runs the registered disposers. *)
Record Loader : Type := mkLoader {
  doWithProject : (gmap string string -> Async World unit) -> Async World unit;
  dispose : Async World unit
}.

Variable loader : Loader.

(** [repoSync]; [sync] is [sdm.configuration.sdm.k8s.options.sync]. *)
Definition repoSync (sync : option Application.SyncOptions) : Async World unit :=
  match sync with
  | None => throw (TypeError "Cannot read property 'credentials' of undefined")
  | Some opts =>
      finally
        (try_catch (doWithProject loader (syncApply sync))
           (fun e =>
              match Application.repo opts with
              | Some _ => ret tt
              | None =>
                  throw (TypeError "Cannot read property 'owner' of undefined")
              end))
        (try_catch (dispose loader) (fun _ => ret tt))
  end.

(** The loop of [initialSync] of the startup listener: the first spec
    that fails ends it. *)
Fixpoint initialEach (specFiles : list ProjectFile) : Async World unit :=
  match specFiles with
  | [] => ret tt
  | specFile :: rest =>
      run try_catch
            (do spec <- lift (parseKubernetesSpecFile imp specFile);
             applySpec imp spec)
            (fun e =>
               throw (setMessage e
                 ("Failed to apply '" +:+ path specFile +:+ "': " +:+
                  message e)));
      initialEach rest
  end.

Definition initialSync (files : gmap string string) : Async World unit :=
  do specFiles <- lift (sortSpecs files);
  initialEach specFiles.

(** Every spec file handled in order, each whatever became of the ones
    before: the outcome of each, and the world left. *)
Fixpoint applyAll (opts : option Application.SyncOptions)
    (specFiles : list ProjectFile) (s : World)
  : list (ProjectFile * result unit) * World :=
  match specFiles with
  | [] => ([], s)
  | specFile :: rest =>
      let r := applyFile opts specFile s in
      let rs := applyAll opts rest r.2 in
      ((specFile, r.1) :: rs.1, rs.2)
  end.

(** The error that a spec file that failed is recorded with. *)
Definition failedFile (fr : ProjectFile * result unit) : list JsError :=
  match fr.2 with
  | Err e =>
      [setMessage e
         ("Failed to apply '" +:+ path fr.1 +:+ "': " +:+ errMsg imp e)]
  | _ => []
  end.

(** The imports with another [decryptSecret]. *)
Definition withDecrypt
    (d : Application.KubernetesObject -> string ->
         result Application.KubernetesObject) (i : Imports) : Imports :=
  mkImports (parseKubernetesSpecFile i) d (applySpec i) (errMsg i) (pathLeb i)
    (streamError i).

(** Parse and apply, as [initialSync] does for one file. *)
Definition applyPlain (specFile : ProjectFile) : Async World unit :=
  do spec <- lift (parseKubernetesSpecFile imp specFile);
  applySpec imp spec.

End WithCluster.

End RepoSync.

(** ** sync/goals.ts: the goal executor *)

Module GoalSync.
Import Diff.

(** [ExecuteGoalResult] *)
Record ExecuteGoalResult : Type := mkResult {
  code : nat;
  message : string
}.

(** The store of the goal: the state of the outside (clone, cluster)
    and the lines written to the progress log, oldest first. *)
Record Run (Outside : Type) : Type := mkRun {
  outside : Outside;
  progress : list string
}.
Arguments mkRun {Outside} _ _.
Arguments outside {Outside} _.
Arguments progress {Outside} _.

Definition changeName (c : ChangeType) : string :=
  match c with apply => "apply" | delete => "delete" end.

Section WithOutside.

Context {Outside : Type}.

(** [git fetch], [diffPush], [changeResource] and [errMsg]. *)
Record Imports : Type := mkImports {
  gitFetch : nat -> Async Outside unit;
  diffPush : Async Outside (list PushDiff);
  changeResource : PushDiff -> Async Outside unit;
  errMsg : JsError -> string
}.

Variable imp : Imports.

(** An action of the outside, run inside the goal. *)
Definition onOutside {A} (m : Async Outside A) : Async (Run Outside) A :=
  fun r =>
    match m (outside r) with
    | (a, o) => (a, mkRun o (progress r))
    end.

(** [log.write(line)] *)
Definition write (line : string) : Async (Run Outside) unit :=
  modify (fun r => mkRun (outside r) (progress r ++ [line])).

(** The loop over the changes; [errs] is the array of the same name. *)
Fixpoint changeEach (changes : list PushDiff) (errs : list JsError)
  : Async (Run Outside) (list JsError) :=
  match changes with
  | [] => ret errs
  | change0 :: rest =>
      let verb := match change change0 with
                  | delete => "Deleting"
                  | apply => "Applying"
                  end in
      run write (verb +:+ " '" +:+ path change0 +:+ "' from commit " +:+
                 sha change0);
      do errs <-
        try_catch
          (run onOutside (changeResource imp change0); ret errs)
          (fun e =>
             let e' := setMessage e
               ("Failed to " +:+ changeName (change change0) +:+ " '" +:+
                path change0 +:+ "' resource for commit " +:+ sha change0 +:+
                ": " +:+ errMsg imp e) in
             run write (Js.message e');
             ret (errs ++ [e']));
      changeEach rest errs
  end.

(** The function that [K8sSync] hands to the project loader; [depth] is
    [params.cloneOptions.depth]. *)
Definition K8sSync (depth : nat) : Async (Run Outside) ExecuteGoalResult :=
  run (if (1 <? depth)%nat
       then try_catch (onOutside (gitFetch imp depth)) (fun _ => ret tt)
       else ret tt);
  do changes <- onOutside (diffPush imp);
  do errs <- changeEach changes [];
  if (0 <? List.length errs)%nat
  then ret (mkResult (List.length errs)
              (join "; " (List.map Js.message errs)))
  else
    let message0 := "Changed " +:+ pretty (List.length changes) +:+
                    " resources" in
    run write message0;
    ret (mkResult 0 message0).

(** Every change handled in order on the outside, each whatever became
    of the ones before: the outcome of each, and the outside left. *)
Fixpoint attemptAll (changes : list PushDiff) (o : Outside)
  : list (PushDiff * result unit) * Outside :=
  match changes with
  | [] => ([], o)
  | change0 :: rest =>
      let r := changeResource imp change0 o in
      let rs := attemptAll rest r.2 in
      ((change0, r.1) :: rs.1, rs.2)
  end.

(** The error that a change that threw is recorded with. *)
Definition failureOf (cr : PushDiff * result unit) : list JsError :=
  match cr.2 with
  | Err e =>
      [setMessage e
         ("Failed to " +:+ changeName (change cr.1) +:+ " '" +:+ path cr.1 +:+
          "' resource for commit " +:+ sha cr.1 +:+ ": " +:+ errMsg imp e)]
  | _ => []
  end.

(** The lines that a change writes to the progress log. *)
Definition linesOf (cr : PushDiff * result unit) : list string :=
  ((match change cr.1 with delete => "Deleting" | apply => "Applying" end) +:+
   " '" +:+ path cr.1 +:+ "' from commit " +:+ sha cr.1) ::
  List.map Js.message (failureOf cr).

Definition threw (cr : PushDiff * result unit) : bool :=
  match cr.2 with Err _ => true | _ => false end.

End WithOutside.

End GoalSync.

(** ** kubernetes/ingress.ts *)

Module Ingress.

(** The properties of a resource request that the ingress functions
    read.  [ingressSpec] is a partial ingress to merge in. *)
Record KubernetesApplication (Patch : Type) : Type := mkApplication {
  name : string;
  ns : string;
  port : option N;
  path : option string;
  host : option string;
  tlsSecret : option string;
  ingressSpec : option Patch
}.
Arguments mkApplication {Patch} _ _ _ _ _ _ _.
Arguments name {Patch} _.
Arguments ns {Patch} _.
Arguments port {Patch} _.
Arguments path {Patch} _.
Arguments host {Patch} _.
Arguments tlsSecret {Patch} _.
Arguments ingressSpec {Patch} _.

Record HTTPIngressPath : Type := mkPath {
  http_path : option string;
  serviceName : string;
  servicePort : string
}.

Record IngressRule : Type := mkRule {
  rule_host : option string;
  paths : list HTTPIngressPath
}.

Record IngressTLS : Type := mkTLS {
  secretName : string;
  hosts : option (list string)
}.

Record V1beta1Ingress (Meta : Type) : Type := mkIngress {
  kind : string;
  apiVersion : string;
  metadata : Meta;
  rules : list IngressRule;
  tls : option (list IngressTLS)
}.
Arguments mkIngress {Meta} _ _ _ _ _.
Arguments kind {Meta} _.
Arguments apiVersion {Meta} _.
Arguments metadata {Meta} _.
Arguments rules {Meta} _.
Arguments tls {Meta} _.

(** [!req.port]: the port is undefined or zero. *)
Definition noPort (p : option N) : bool :=
  match p with
  | Some n => bool_decide (n = 0%N)
  | None => true
  end.

Section WithCluster.

Context {Cluster Patch Labels Meta : Type}.
Abbreviation Request := (KubernetesApplication Patch).
Abbreviation Ing := (V1beta1Ingress Meta).

(** The extensions client, [logRetry], [appName], [applicationLabels],
    [metadataTemplate] and lodash's [merge]. *)
Record Imports : Type := mkImports {
  readNamespacedIngress : string -> string -> Async Cluster Ing;
  createNamespacedIngress : string -> Ing -> Async Cluster unit;
  patchNamespacedIngress : string -> string -> Ing -> Async Cluster unit;
  deleteNamespacedIngress : string -> string -> Async Cluster unit;
  logRetry : Async Cluster unit -> string -> Async Cluster unit;
  appName : Request -> string;
  applicationLabels : Request -> Labels;
  metadataTemplate : string -> string -> Labels -> Meta;
  merge : Ing -> Patch -> Ing
}.

Variable imp : Imports.

Definition httpIngressPath (req : Request) : HTTPIngressPath :=
  mkPath (path req) (name req) "http".

Definition ingressTemplate (req : Request) : Ing :=
  let labels := applicationLabels imp req in
  let metadata0 := metadataTemplate imp (name req) (ns req) labels in
  let httpPath := httpIngressPath req in
  let rule := mkRule (if truthy (host req) then host req else None)
                [httpPath] in
  let i := mkIngress "Ingress" "extensions/v1beta1" metadata0 [rule]
             (if truthy (tlsSecret req)
              then Some [mkTLS (show (tlsSecret req))
                           (if truthy (host req)
                            then Some [show (host req)] else None)]
              else None) in
  match ingressSpec req with
  | Some patch => merge imp i patch
  | None => i
  end.

Definition upsertIngress (req : Request) : Async Cluster (option Ing) :=
  let slug := appName imp req in
  if noPort (port req) then ret None
  else if negb (truthy (path req)) then ret None
  else
    let spec := ingressTemplate req in
    fun s =>
      match readNamespacedIngress imp (name req) (ns req) s with
      | (Ok _, s1) =>
          (run logRetry imp
                 (patchNamespacedIngress imp (name req) (ns req) spec)
                 ("patch ingress " +:+ slug);
           ret (Some spec)) s1
      | (Err _, s1) =>
          (run logRetry imp (createNamespacedIngress imp (ns req) spec)
                 ("create ingress " +:+ slug);
           ret (Some spec)) s1
      | (Unfinished x, s1) => (Unfinished x, s1)
      end.

Definition deleteIngress (req : Request) : Async Cluster (option Ing) :=
  let slug := appName imp req in
  fun s =>
    match readNamespacedIngress imp (name req) (ns req) s with
    | (Ok ing, s1) =>
        (run logRetry imp (deleteNamespacedIngress imp (name req) (ns req))
               ("delete ingress " +:+ slug);
         ret (Some ing)) s1
    | (Err _, s1) => (Ok None, s1)
    | (Unfinished x, s1) => (Unfinished x, s1)
    end.

End WithCluster.

End Ingress.

(** ** The deployment goal: its environment and its descriptions *)

Module Goal.

(** [\w] and [\d] of a regular expression. *)
Definition isDigit (c : ascii) : bool :=
  (48 <=? nat_of_ascii c)%nat && (nat_of_ascii c <=? 57)%nat.
Definition isWord (c : ascii) : bool :=
  isDigit c || isLower c || isUpper c || Ascii.eqb c "_".

(** The longest prefix of characters of a class, and what follows. *)
Fixpoint span (f : ascii -> bool) (s : string) : string * string :=
  match s with
  | String c s' =>
      if f c then (String c (span f s').1, (span f s').2)
      else (EmptyString, s)
  | EmptyString => (EmptyString, EmptyString)
  end.

(** [/^\d+-\w+\/$/.test(s)] *)
Definition isGoalEnvironment (s : string) : bool :=
  match span isDigit s with
  | (String _ _, String c rest) =>
      Ascii.eqb c "-" &&
      match span isWord rest with
      | (String _ _, String c' EmptyString) => Ascii.eqb c' "/"
      | _ => false
      end
  | _ => false
  end.

(** The descriptions of [FulfillableGoalDetails] that [defaultDetails]
    fills in; [otherDescriptions] are the remaining ones. *)
Record Descriptions (D : Type) : Type := mkDescriptions {
  completed : option string;
  failed : option string;
  waitingForApproval : option string;
  otherDescriptions : D
}.
Arguments mkDescriptions {D} _ _ _ _.
Arguments completed {D} _.
Arguments failed {D} _.
Arguments waitingForApproval {D} _.
Arguments otherDescriptions {D} _.

(** [FulfillableGoalDetails]; [otherDetails] are the properties that
    [defaultDetails] does not read. *)
Record FulfillableGoalDetails (D R : Type) : Type := mkDetails {
  environment : option string;
  displayName : option string;
  descriptions : option (Descriptions D);
  otherDetails : R
}.
Arguments mkDetails {D R} _ _ _ _.
Arguments environment {D R} _.
Arguments displayName {D R} _.
Arguments descriptions {D R} _.
Arguments otherDetails {D R} _.

(** [x] when it is truthy, [y] otherwise. *)
Definition orElse (x : option string) (y : string) : option string :=
  if truthy x then x else Some y.

Section Details.

(** [StagingEnvironment] and [ProductionEnvironment] of the SDM. *)
Variable StagingEnvironment ProductionEnvironment : string.

Definition getEnvironmentLabel (environment : option string) : string :=
  if truthy environment then
    let env := show environment in
    if isGoalEnvironment env then
      if String.eqb env StagingEnvironment then " to `testing`"
      else if String.eqb env ProductionEnvironment then " to `production`"
      else ""
    else " to `" +:+ env +:+ "`"
  else "".

Context {D R : Type}.

(** [{}] as descriptions. *)
Variable noDescriptions : D.

Definition defaultDetails (details : FulfillableGoalDetails D R)
  : FulfillableGoalDetails D R :=
  let envLabel := getEnvironmentLabel (environment details) in
  let descriptions0 :=
    match descriptions details with
    | Some d => d
    | None => mkDescriptions None None None noDescriptions
    end in
  mkDetails (environment details)
    (orElse (displayName details) ("deploy" +:+ envLabel))
    (Some (mkDescriptions
             (orElse (completed descriptions0) ("Deployed" +:+ envLabel))
             (orElse (failed descriptions0)
                ("Deployment" +:+ envLabel +:+ " failed"))
             (orElse (waitingForApproval descriptions0)
                ("Successfully deployed" +:+ envLabel))
             (otherDescriptions descriptions0)))
    (otherDetails details).

End Details.

(** The places [defaultEnvironment] looks at, in order:
    [k8Deploy.details.environment], [goalEvent.environment],
    [k8Deploy.environment], [k8Deploy.sdm.configuration.environment]. *)
Record EnvironmentSources : Type := mkSources {
  detailsEnvironment : option (option string);
  goalEventEnvironment : option string;
  goalEnvironment : option string;
  configurationEnvironment : option (option (option string))
}.

Definition defaultEnvironment (src : EnvironmentSources) : option string :=
  if match detailsEnvironment src with
     | Some e => truthy e
     | None => false
     end
  then match detailsEnvironment src with Some e => e | None => None end
  else if truthy (goalEventEnvironment src) then goalEventEnvironment src
  else if truthy (goalEnvironment src) then goalEnvironment src
  else
    match configurationEnvironment src with
    | Some (Some e) => if truthy e then e else None
    | _ => None
    end.

(** The values found at the four places; a place that cannot be
    reached holds undefined. *)
Definition environmentCandidates (src : EnvironmentSources)
  : list (option string) :=
  [ match detailsEnvironment src with Some e => e | None => None end;
    goalEventEnvironment src;
    goalEnvironment src;
    match configurationEnvironment src with
    | Some (Some e) => e
    | _ => None
    end ].

(** Every character of a string is of a class. *)
Fixpoint allChars (f : ascii -> bool) (s : string) : bool :=
  match s with
  | EmptyString => true
  | String c s' => f c && allChars f s'
  end.

End Goal.

(** ** Views of the working copy *)

Module WorkingCopy.
Import Application.

(** The specs that [syncResources] loads from a working copy. *)
Definition specsOf env (w : World) : list ProjectFileSpec :=
  match loadSpecs env w with
  | (Ok specs, _) => specs
  | _ => []
  end.

(** The serialization that [resourceUpserted] writes into a file. *)
Definition specString env (resource : KubernetesObject) (path : string)
  : string :=
  if isYamlPath path then safeDump env resource
  else stringifySpec env resource.

End WorkingCopy.

(** ** Test data *)

Module Samples.

Module App.
Import Application.

(** The resources of the tests "should create a namespace file name"
    and "should create a simple namespaced file name". *)
Definition namespaceLyle : KubernetesObject :=
  mkObject (Some "v1") (Some "Namespace") (Some (mkMeta (Some "lyle") None [])) [].
Definition deploymentLyle : KubernetesObject :=
  mkObject (Some "apps/v1") (Some "Deployment")
    (Some (mkMeta (Some "lyle") (Some "lovett") [])) [].

(** The file specs of the test "should find the right file spec among
    several". *)
Definition severalSpecs : list ProjectFileSpec :=
  [mkFileSpec "svc.json"
     (mkObject (Some "v1") (Some "Service")
        (Some (mkMeta (Some "lyle") (Some "lovett") [])) []);
   mkFileSpec "jondep.json"
     (mkObject (Some "apps/v1") (Some "Deployment")
        (Some (mkMeta (Some "jon") (Some "lovett") [])) []);
   mkFileSpec "dep.json" deploymentLyle;
   mkFileSpec "beta-dep.json"
     (mkObject (Some "extensions/v1beta1") (Some "Deployment")
        (Some (mkMeta (Some "lyle") (Some "lovett") [])) [])].

(** The Secret of the test "should update spec files and avoid
    conflicts". *)
Definition secretTonina : KubernetesObject :=
  mkObject (Some "v1") (Some "Secret")
    (Some (mkMeta (Some "tonina") (Some "black-angel") []))
    [("Track01", "w4FyYm9sIERlIExhIFZpZGE=");
     ("Track02", "Q2FseXBzbyBCbHVlcw==")].

(** A sample environment: nothing parses, the serializers print the
    kind and the name, Git accepts the commit and the push. *)
Definition sampleEnv : Env :=
  mkEnv (fun _ _ => Err (Error "Unexpected token"))
        (fun o => "{" +:+ show (kind o) +:+ " " +:+
                  show (metadata o ≫= name) +:+ "}")
        (fun o => show (kind o) +:+ ": " +:+ show (metadata o ≫= name))
        "[atomist:sync-commit=@atomist/sdm-pack-k8s]"
        (fun a => app_ns a +:+ "/" +:+ app_name a)
        None None.

Definition emptyWorld : World := mkWorld (mkProject ∅ ∅ []) [].

End App.

Module Changes.
Import Diff.

Definition testSha : string := "87c6ba8a3e2e3961d318fa8c50885b1ca0c4e1dc".

Definition validEntries : list (Status * string) :=
  [(Deleted, "a.yaml"); (Added, "aa.json"); (Deleted, "b.yml");
   (Added, "d.json"); (Modified, "e.json"); (Added, "fyml");
   (Added, "i/j/k/l.json"); (Added, "s t.json"); (Modified, "x.yaml")].

Definition sortEntries : list (Status * string) :=
  [(Deleted, "a.yaml"); (Added, "s t.json"); (Deleted, "b.yml");
   (Added, "d.json"); (Modified, "e.json"); (Added, "aa.json");
   (Added, "i/j/k/l.json"); (Modified, "x.yaml"); (Added, "f")].

Definition expectedChanges : list PushDiff :=
  [mkPushDiff testSha delete "a.yaml"; mkPushDiff testSha delete "b.yml";
   mkPushDiff testSha apply "aa.json"; mkPushDiff testSha apply "d.json";
   mkPushDiff testSha apply "e.json"; mkPushDiff testSha apply "s t.json";
   mkPushDiff testSha apply "x.yaml"].

End Changes.

Module Crypto.
Import Secret.

(** UTF-8 as Node encodes a string: a surrogate pair is one code point
    of four bytes, an unpaired surrogate is encoded as U+FFFD. *)
Definition byteOf (n : N) : Byte.byte := default Byte.x00 (Byte.of_N n).

Definition replacement : list N := [0xEF; 0xBF; 0xBD]%N.

Definition encodePoint (cp : N) : list N :=
  (if cp <? 0x80 then [cp]
   else if cp <? 0x800 then [0xC0 + cp / 0x40; 0x80 + cp mod 0x40]
   else if cp <? 0x10000 then
     [0xE0 + cp / 0x1000; 0x80 + (cp / 0x40) mod 0x40; 0x80 + cp mod 0x40]
   else
     [0xF0 + cp / 0x40000; 0x80 + (cp / 0x1000) mod 0x40;
      0x80 + (cp / 0x40) mod 0x40; 0x80 + cp mod 0x40])%N.

Fixpoint utf8Encode (t : JsString) : list N :=
  match t with
  | [] => []
  | u :: t' =>
      if isHighSurrogate u then
        match t' with
        | l :: t'' =>
            if isLowSurrogate l
            then encodePoint (0x10000 + (u - 0xD800) * 0x400 + (l - 0xDC00))%N
                 ++ utf8Encode t''
            else replacement ++ utf8Encode t'
        | [] => replacement
        end
      else if isLowSurrogate u then replacement ++ utf8Encode t'
      else encodePoint u ++ utf8Encode t'
  end.

Definition isContinuation (b : N) : bool := (0x80 <=? b)%N && (b <? 0xC0)%N.

(** The code units of a code point. *)
Definition unitsOf (cp : N) : JsString :=
  (if cp <? 0x10000 then [cp]
   else [0xD800 + (cp - 0x10000) / 0x400; 0xDC00 + (cp - 0x10000) mod 0x400])%N.

Definition point2 (b0 b1 : N) : N := ((b0 - 0xC0) * 0x40 + (b1 - 0x80))%N.
Definition point3 (b0 b1 b2 : N) : N :=
  ((b0 - 0xE0) * 0x1000 + (b1 - 0x80) * 0x40 + (b2 - 0x80))%N.
Definition point4 (b0 b1 b2 b3 : N) : N :=
  ((b0 - 0xF0) * 0x40000 + (b1 - 0x80) * 0x1000 + (b2 - 0x80) * 0x40 +
   (b3 - 0x80))%N.

Definition valid2 (b0 b1 : N) : bool :=
  (0xC2 <=? b0)%N && (b0 <? 0xE0)%N && isContinuation b1.
Definition valid3 (b0 b1 b2 : N) : bool :=
  (0xE0 <=? b0)%N && (b0 <? 0xF0)%N && isContinuation b1 && isContinuation b2 &&
  (0x800 <=? point3 b0 b1 b2)%N &&
  negb (isHighSurrogate (point3 b0 b1 b2)) &&
  negb (isLowSurrogate (point3 b0 b1 b2)).
Definition valid4 (b0 b1 b2 b3 : N) : bool :=
  (0xF0 <=? b0)%N && (b0 <? 0xF8)%N && isContinuation b1 && isContinuation b2 &&
  isContinuation b3 && (0x10000 <=? point4 b0 b1 b2 b3)%N &&
  (point4 b0 b1 b2 b3 <? 0x110000)%N.

(** Decoding: a well-formed sequence of one to four bytes gives its
    code point; a byte that starts none gives U+FFFD. *)
Fixpoint utf8Decode (b : list N) : JsString :=
  match b with
  | [] => []
  | b0 :: r0 =>
      if (b0 <? 0x80)%N then b0 :: utf8Decode r0
      else
        match r0 with
        | b1 :: r1 =>
            if valid2 b0 b1 then point2 b0 b1 :: utf8Decode r1
            else
              match r1 with
              | b2 :: r2 =>
                  if valid3 b0 b1 b2 then point3 b0 b1 b2 :: utf8Decode r2
                  else
                    match r2 with
                    | b3 :: r3 =>
                        if valid4 b0 b1 b2 b3
                        then unitsOf (point4 b0 b1 b2 b3) ++ utf8Decode r3
                        else 0xFFFD%N :: utf8Decode r0
                    | [] => 0xFFFD%N :: utf8Decode r0
                    end
              | [] => 0xFFFD%N :: utf8Decode r0
              end
        | [] => [0xFFFD%N]
        end
  end.

(** A stand-in for Node's functions that can be run: a string is
    encoded in UTF-8 as above; the derived bytes are zero, the cipher
    reverses the bytes, base64 keeps them, one code unit a byte. *)
Definition sampleCrypto : NodeCrypto :=
  mkNodeCrypto
    (fun _ _ n => List.repeat Byte.x00 n)
    (fun k iv m =>
       if (List.length k =? 32)%nat && (List.length iv =? 16)%nat
       then Ok (List.rev m) else Err (RangeError "Invalid key length"))
    (fun k iv c =>
       if (List.length k =? 32)%nat && (List.length iv =? 16)%nat
       then Ok (List.rev c) else Err (RangeError "Invalid key length"))
    (fun t => List.map byteOf (utf8Encode t))
    (fun b => utf8Decode (List.map Byte.to_N b))
    (List.map Byte.to_N) (List.map byteOf).

(** "Árbol" and a face: one two-byte character and a surrogate pair. *)
Definition arbol : JsString :=
  [0xC1; 0x72; 0x62; 0x6F; 0x6C; 0x20; 0xD83D; 0xDE00]%N.

End Crypto.

Module Push.
Import Goals.

(** A configuration whose sync repo is resolved, and a push to it. *)
Definition sampleRepo : RemoteRepoRef :=
  mkRemoteRepoRef 1%N "tonina" "black-angel" (Some "master").
Definition sampleSdm : Configuration :=
  mkConfiguration "@atomist/sdm-pack-k8s"
    (Some (mkSyncOptions (Some (Resolved sampleRepo)))).
Definition sampleTag (c : Configuration) : string :=
  "[atomist:sync-commit=" +:+ sdm_name c +:+ "]".
Definition samplePush : PushListenerInvocation :=
  mkPush sampleRepo
    [mkCommit "Update specs [atomist:sync-commit=@atomist/sdm-pack-k8s]";
     mkCommit "Add a deployment"].

End Push.

Module Cluster.
Import KubeApp.

(** Imports on a cluster that is the list of the kinds whose deletion
    or upsert was attempted, oldest first.  [config] is what loading
    the configuration gives, [failing] the kinds whose call throws,
    [ingress] what upserting the ingress returns. *)
Definition recording (kind : string) (failing : list string) {A} (a : A)
  : Async (list string) A :=
  fun s =>
    (if existsb (String.eqb kind) failing then Err (Error "Forbidden")
     else Ok a,
     s ++ [kind]).

Definition recordingUpserts (config : result unit) (failing : list string)
    (ingress : option (@KubeApp.Response string))
  : @KubeApp.Imports (list string) string unit unit :=
  mkImports config (fun _ => tt)
    (fun _ => recording "ingress" failing (Some "ingress/tonina"))
    (fun _ => recording "deployment" failing (Some "deployment/tonina"))
    (fun _ => recording "secrets" failing [Some "secret/tonina"])
    (fun _ => recording "service" failing None)
    (fun _ => recording "rbac" failing [Some "role/tonina"; None])
    (fun _ => recording "namespace" failing (Some (mkResponse (Some "ns"))))
    (fun _ => recording "rbac" failing [])
    (fun _ => recording "service" failing (Some (mkResponse None)))
    (fun _ => recording "secrets" failing [])
    (fun _ => recording "deployment" failing
                (Some (mkResponse (Some "deployment/tonina"))))
    (fun _ => recording "ingress" failing ingress)
    (fun _ => "{}").

(** The same with an ingress upsert that returns a spec, which has no
    [body]. *)
Definition recordingImports (config : result unit) (failing : list string)
  : @KubeApp.Imports (list string) string unit unit :=
  recordingUpserts config failing (Some (mkResponse None)).

Definition tonina : KubernetesDelete := mkDelete "tonina" "black-angel".

End Cluster.

Module Synced.
Import Application.

(** An environment whose parser reads what the sample serializer
    prints for the Deployment "lyle". *)
Definition readingEnv : Env :=
  mkEnv (fun _ c => if String.eqb c ("{Deployment lyle}" +:+ nl)
                    then Ok App.deploymentLyle
                    else Err (Error "Unexpected token"))
        (stringify App.sampleEnv) (safeDump App.sampleEnv)
        "[tag]" (fun a => app_ns a +:+ "/" +:+ app_name a) None None.

Definition syncedWorld : World :=
  mkWorld (mkProject
             {[ "lovett-lyle-deployment.json" := "{Deployment lyle}" +:+ nl ]}
             {[ "lovett-lyle-deployment.json" := "{Deployment lyle}" +:+ nl ]}
             [Commit "first"; Push]) [].

End Synced.

Module Specs.
Import RepoSync.

(** The spec that the sample parser reads from a file: its kind is the
    content of the file, its name the path. *)
Definition specOf (f : ProjectFile) : Application.KubernetesObject :=
  Application.mkObject (Some "v1") (Some (content f))
    (Some (Application.mkMeta (Some (path f)) None [])) [].

(** Imports on a cluster that is the list of the names of the specs
    whose application was attempted, oldest first: an empty file does
    not parse, applying the kind "Bad" throws. *)
Definition applying : @RepoSync.Imports (list string) :=
  mkImports
    (fun f => if String.eqb (content f) ""
              then Err (Error "Unexpected end of JSON input")
              else Ok (specOf f))
    (fun spec key =>
       Ok (Application.mkObject (Application.apiVersion spec)
             (Application.kind spec) (Application.metadata spec)
             [("key", key)]))
    (fun spec s =>
       (if bool_decide (Application.kind spec = Some "Bad")
        then Err (Error "Forbidden") else Ok tt,
        s ++ [show (Application.metadata spec ≫= Application.name)]))
    Js.message Diff.codeUnitLeb None.

Definition repoFiles : gmap string string :=
  {[ "b.json" := "Bad"; "d.json" := "Secret"; "a.yaml" := "Deployment";
     "c.yml" := ""; "notes.txt" := "x" ]}.

(** A decryption that always fails. *)
Definition noDecrypt (spec : Application.KubernetesObject) (key : string)
  : result Application.KubernetesObject :=
  Err (Error "bad decrypt").

(** A loader that hands [repoFiles] to the action and whose disposal
    fails. *)
Definition cloning : @RepoSync.Loader (list string) :=
  mkLoader (fun action => action repoFiles)
    (fun s => (Err (Error "EBUSY"), s ++ ["disposed"])).

End Specs.

Module Pushes.
Import Diff GoalSync.

(** Imports on an outside that is the list of the calls made, oldest
    first: the fetch fails, the push has three changes, changing
    "b.yml" throws. *)
Definition changing : @GoalSync.Imports (list string) :=
  mkImports
    (fun depth s => (Err (Error "no remote"), s ++ ["fetch"]))
    (fun s => (Ok [mkPushDiff Changes.testSha delete "a.yaml";
                   mkPushDiff Changes.testSha delete "b.yml";
                   mkPushDiff Changes.testSha apply "aa.json"],
               s ++ ["diff"]))
    (fun c s =>
       (if String.eqb (path c) "b.yml" then Err (Error "Not Found")
        else Ok tt,
        s ++ [path c]))
    Js.message.

End Pushes.

Module Ingresses.
Import Ingress.

(** Imports on a cluster that is the list of the calls made, oldest
    first; reading succeeds when [present]. *)
Definition calling (present : bool)
  : @Ingress.Imports (list string) unit unit string :=
  mkImports
    (fun name ns s =>
       (if present then Ok (mkIngress "Ingress" "extensions/v1beta1" name [] None)
        else Err (Error "Not Found"),
        s ++ ["read"]))
    (fun _ _ s => (Ok tt, s ++ ["create"]))
    (fun _ _ _ s => (Ok tt, s ++ ["patch"]))
    (fun _ _ s => (Ok tt, s ++ ["delete"]))
    (fun f _ => f)
    (fun req => ns req +:+ "/" +:+ name req)
    (fun _ => tt)
    (fun name ns _ => ns +:+ "/" +:+ name)
    (fun i _ => i).

Definition rocker : KubernetesApplication unit :=
  mkApplication "rocker" "cloudcult" (Some 8080%N) (Some "/rocker")
    (Some "emi.com") (Some "emi-com") None.

(** The same application without a path. *)
Definition headless : KubernetesApplication unit :=
  mkApplication "rocker" "cloudcult" (Some 8080%N) None None None None.

End Ingresses.

End Samples.

(** ** Proof steps for the arithmetic of code units *)

Ltac divlia := zify; Z.to_euclidean_division_equations; lia.

Ltac bools :=
  repeat match goal with
  | H : _ && _ = true |- _ => apply andb_true_iff in H as [? ?]
  | H : (_ <=? _)%N = true |- _ => apply N.leb_le in H
  | H : (_ <? _)%N = true |- _ => apply N.ltb_lt in H
  end.

Ltac decide_ltb :=
  repeat match goal with
  | |- context [(?a <? ?b)%N] =>
      first [ rewrite (proj2 (N.ltb_lt a b)) by divlia
            | rewrite (proj2 (N.ltb_ge a b)) by divlia ]
  | |- context [(?a <=? ?b)%N] =>
      first [ rewrite (proj2 (N.leb_le a b)) by divlia
            | rewrite (proj2 (N.leb_gt a b)) by divlia ]
  end.

(** * Properties *)

(** ** The run-time notions *)

Module JsFacts.

Lemma prefix_append (t u : string) : String.prefix t (t +:+ u) = true.
Proof.
  induction t as [|c t IH]; simpl.
  - by destruct u.
  - by destruct (ascii_dec c c).
Qed.

Lemma includes_here (t u : string) : includes (t +:+ u) t = true.
Proof.
  destruct t as [|c t]; simpl.
  - by destruct u.
  - destruct (ascii_dec c c); [|done]. by rewrite prefix_append.
Qed.

Lemma includes_append_r (s t u : string) :
  includes u t = true -> includes (s +:+ u) t = true.
Proof.
  intros H. induction s as [|c s IH]; simpl; [done|].
  rewrite IH. apply orb_true_r.
Qed.

Lemma length_append (s t : string) :
  String.length (s +:+ t) = String.length s + String.length t.
Proof. induction s as [|c s IH]; simpl; [done|by rewrite IH]. Qed.

End JsFacts.

(** ** sync/application.ts: matching and naming *)

Module ApplicationFacts.
Import Application JsFacts Samples.App.





(** The outcome of [matchSpec] does not depend on the reasons for
    which the surrounding run may be cut short. *)
Lemma matchSpec_result {X} (q : KubernetesObject) (es : list ProjectFileSpec) :
  matchSpec (X:=X) q es =
    match matchSpec (X:=Empty_set) q es with
    | Ok r => Ok r
    | Err e => Err e
    | Unfinished x => match x with end
    end.
Proof.
  induction es as [|x es IH]; simpl; [done|].
  unfold sameIdentity, metadataFor.
  destruct (strictEq _ _ && strictEq _ _); simpl; [|done].
  destruct (metadata q); simpl; [|done].
  destruct (metadata (spec x)); simpl; [|done].
  by destruct (strictEq _ _ && strictEq _ _).
Qed.





Example matchSpec_among_several :
  matchSpec (X:=Empty_set) deploymentLyle severalSpecs =
    Ok (Some (mkFileSpec "dep.json" deploymentLyle)) /\
  matchSpec (X:=Empty_set) namespaceLyle severalSpecs = Ok None /\
  matchSpec (X:=Empty_set) deploymentLyle [] = Ok None.
Proof. repeat split. Qed.



(** *** specFileBasename *)

Lemma specFileBasename_eq {X} (r : KubernetesObject) (m : ObjectMeta)
    (k : string) :
  metadata r = Some m -> kind r = Some k ->
  specFileBasename (X:=X) r =
    Ok (toLowerCase
          ((if truthy (namespace m)
            then show (namespace m) +:+ "-" else "") +:+
           show (name m) +:+ "-" +:+ pascalToKebab k)).
Proof.
  intros Hm Hk. unfold specFileBasename, metadataFor. by rewrite Hm, Hk.
Qed.

Lemma isUpper_not_isLower (c : ascii) : isUpper c = true -> isLower c = false.
Proof.
  unfold isUpper, isLower. intros H. apply andb_true_iff in H as [_ H].
  apply Nat.leb_le in H. apply andb_false_iff. left. apply Nat.leb_gt. lia.
Qed.

Lemma pascalToKebab_step (c1 c2 : ascii) (rest : string) :
  pascalToKebab (String c1 (String c2 rest)) =
    if isLower c1 && isUpper c2
    then String c1 (String "-" (String c2 (pascalToKebab rest)))
    else String c1 (pascalToKebab (String c2 rest)).
Proof. reflexivity. Qed.

Lemma hyphenate_step (c1 c2 : ascii) (rest : string) :
  hyphenate (String c1 (String c2 rest)) =
    String c1 (if isLower c1 && isUpper c2
               then String "-" (hyphenate (String c2 rest))
               else hyphenate (String c2 rest)).
Proof. reflexivity. Qed.

Lemma hyphenate_upper (c : ascii) (rest : string) :
  isUpper c = true -> hyphenate (String c rest) = String c (hyphenate rest).
Proof.
  intros Hu. destruct rest as [|c' rest]; [done|].
  rewrite hyphenate_step. by rewrite (isUpper_not_isLower c Hu).
Qed.

(** The replacement of the regular expression, whose matches do not
    overlap, puts a hyphen at every boundary between a lower-case and an
    upper-case letter. *)
Lemma pascalToKebab_hyphenate (s : string) : pascalToKebab s = hyphenate s.
Proof.
  remember (String.length s) as n eqn:Hn.
  revert s Hn. induction n as [n IH] using lt_wf_ind. intros s Hn.
  destruct s as [|c1 [|c2 rest]]; [done|done|].
  rewrite pascalToKebab_step, hyphenate_step.
  destruct (isLower c1 && isUpper c2) eqn:E.
  - apply andb_true_iff in E as [_ Hu]. rewrite (hyphenate_upper c2 rest Hu).
    do 3 f_equal. apply (IH (String.length rest)); [|done].
    simpl in Hn. lia.
  - f_equal. apply (IH (String.length (String c2 rest))); [|done].
    simpl in Hn. simpl. lia.
Qed.

(** The kinds of the naming tests, in kebab case. *)
Example pascalToKebab_kinds :
  List.map (fun k => toLowerCase (pascalToKebab k))
    ["Deployment"; "ServiceAccount"; "ClusterRoleBinding";
     "HorizontalPodAutoscaler"; "PersistentVolumeClaim"] =
    ["deployment"; "service-account"; "cluster-role-binding";
     "horizontal-pod-autoscaler"; "persistent-volume-claim"].
Proof. reflexivity. Qed.

(** C2. At the cluster-scoped resource Namespace "lyle" the base name
    is "lyle-namespace", and at the Deployment "lyle" of namespace
    "lovett" it is "lovett-lyle-deployment": the parts are joined by
    hyphens and no priority code comes first, whatever the code.  The
    tests expect "10_lyle_namespace" and "70_lovett_lyle_deployment". *)
Theorem specFileBasename_without_priority_prefix :
  specFileBasename (X:=Empty_set) namespaceLyle = Ok "lyle-namespace" /\
  specFileBasename (X:=Empty_set) deploymentLyle = Ok "lovett-lyle-deployment" /\
  (forall priorityPrefix,
     specFileBasename (X:=Empty_set) namespaceLyle <>
       Ok (priorityPrefix +:+ "_lyle_namespace")) /\
  (forall priorityPrefix,
     specFileBasename (X:=Empty_set) deploymentLyle <>
       Ok (priorityPrefix +:+ "_lovett_lyle_deployment")).
Proof.
  split; [reflexivity|]. split; [reflexivity|].
  split; intros pp H; injection H as H;
    apply (f_equal String.length) in H; rewrite length_append in H;
    simpl in H; lia.
Qed.

End ApplicationFacts.

(** ** sync/application.ts: writing the sync repo *)

Module SyncFacts.
Import Application JsFacts Samples.App.

Lemma syncResources_parts env app resources action w :
  syncResources env app resources action w =
    match processResources env resources action w with
    | (Ok _, w1) =>
        if bool_decide (files (project w1) = head (project w1))
        then (Ok tt, w1)
        else commitAndPush env app action w1
    | (Err e, w1) => (Err e, w1)
    | (Unfinished x, w1) => (Unfinished x, w1)
    end.
Proof.
  unfold syncResources, processResources, commitAndPush, bind, loadSpecs,
    isClean, ret.
  destruct action; simpl;
    match goal with
    | |- context [for_of ?xs ?b ?s] => destruct (for_of xs b s) as [[[]| |] w1]
    end; try done; by case_bool_decide.
Qed.

(** A loop keeps what each of its rounds keeps. *)
Lemma for_of_keeps {X S A B} (f : S -> B) (body : A -> M X S unit) :
  (forall x s, f (body x s).2 = f s) ->
  forall xs s, f (for_of xs body s).2 = f s.
Proof.
  intros Hbody xs. induction xs as [|x xs IH]; intros s; simpl; [done|].
  unfold bind. specialize (Hbody x s).
  destruct (body x s) as [[a|e|u] s']; simpl in *; [|done|done].
  by rewrite IH.
Qed.

Lemma resourceUpserted_calls env r fs w :
  calls (project (resourceUpserted env r fs w).2) = calls (project w) /\
  head (project (resourceUpserted env r fs w).2) = head (project w).
Proof.
  unfold resourceUpserted. destruct fs as [fs|]; [done|].
  unfold bind, lift, specFileBasename, metadataFor.
  destruct (metadata r); [simpl|done].
  destruct (kind r); [|done].
  match goal with
  | |- context [freshSpecPath ?a ?b ?c ?d ?e] =>
      destruct (freshSpecPath a b c d e) as [[path gs]|]
  end; done.
Qed.

Lemma resourceDeleted_calls r fs w :
  calls (project (resourceDeleted r fs w).2) = calls (project w) /\
  head (project (resourceDeleted r fs w).2) = head (project w).
Proof. by destruct fs. Qed.

(** Handling the resources makes no Git call and no commit. *)
Lemma processResources_calls env resources action w :
  calls (project (processResources env resources action w).2) =
    calls (project w) /\
  head (project (processResources env resources action w).2) =
    head (project w).
Proof.
  unfold processResources, bind, loadSpecs.
  set (specs := omap _ _).
  pose proof (for_of_keeps (X:=unit) (A:=KubernetesObject)
                (fun w => (calls (project w), head (project w)))) as H.
  match goal with
  | |- context [for_of resources ?body w] =>
      specialize (H body); assert (E : forall x s,
        (calls (project (body x s).2), head (project (body x s).2)) =
        (calls (project s), head (project s)))
  end.
  { intros x s. unfold bind, lift.
    destruct (matchSpec x specs) as [fs|e|u]; [|done|done].
    destruct action.
    - by destruct (resourceUpserted_calls env x fs s) as [-> ->].
    - by destruct (resourceDeleted_calls x fs s) as [-> ->]. }
  specialize (H E resources w).
  split; [exact (f_equal fst H)|exact (f_equal snd H)].
Qed.

Lemma commitMessage_includes env action app :
  includes (commitMessage env (syncVerb action) app) (syncVerb action) = true /\
  includes (commitMessage env (syncVerb action) app) "[atomist:generated]"
    = true /\
  includes (commitMessage env (syncVerb action) app) (commitTag env) = true.
Proof.
  unfold commitMessage. split; [apply includes_here|]. split.
  - do 5 apply includes_append_r.
    change (includes ("[atomist:generated]" +:+ " " +:+ commitTag env +:+ nl)
              "[atomist:generated]" = true).
    apply includes_here.
  - do 6 apply includes_append_r. apply includes_here.
Qed.

(** The commit message that the tests of [syncResources] expect. *)
Example commitMessage_of_upsert :
  commitMessage sampleEnv (syncVerb upsert) (mkDelete "tonina" "black-angel") =
    "Update specs for black-angel/tonina" +:+ nl +:+ nl +:+
    "[atomist:generated] [atomist:sync-commit=@atomist/sdm-pack-k8s]" +:+ nl.
Proof. reflexivity. Qed.

(** C7. Once the resources of a batch are handled, [syncResources]
    returns without any Git call when the working copy is clean.
    Otherwise it makes one commit, whose message holds "Update" for an
    upsert batch and "Delete" for a delete batch, the generated marker
    and the commit tag, and then one push; when Git refuses the commit
    (no push follows) or the push, the call throws that error with the
    message prefixed. *)
Theorem syncResources_single_commit_and_push
    env app resources action (w w1 : World) :
  processResources env resources action w = (Ok tt, w1) ->
  let msg := commitMessage env (syncVerb action) app in
  let failed e :=
    setMessage e
      ("Failed to commit and push resource changes to sync repo: " +:+
       message e) in
  let out := syncResources env app resources action w in
  (includes msg (syncVerb action) = true /\
   includes msg "[atomist:generated]" = true /\
   includes msg (commitTag env) = true) /\
  (files (project w1) = head (project w1) ->
     out = (Ok tt, w1) /\ calls (project out.2) = calls (project w)) /\
  (files (project w1) <> head (project w1) ->
     files (project out.2) = files (project w1) /\
     match commitError env, pushError env with
     | None, None =>
         out.1 = Ok tt /\
         calls (project out.2) = calls (project w) ++ [Commit msg; Push]
     | None, Some e =>
         out.1 = Err (failed e) /\
         calls (project out.2) = calls (project w) ++ [Commit msg; Push]
     | Some e, _ =>
         out.1 = Err (failed e) /\
         calls (project out.2) = calls (project w) ++ [Commit msg]
     end).
Proof.
  intros Hp msg failed out.
  pose proof (processResources_calls env resources action w) as [Hc _].
  rewrite Hp in Hc. simpl in Hc.
  split; [apply commitMessage_includes|].
  subst out. rewrite syncResources_parts, Hp. split.
  - intros Hclean. by rewrite bool_decide_eq_true_2.
  - intros Hdirty. rewrite bool_decide_eq_false_2 by done.
    unfold commitAndPush, commit, push, try_catch, bind, modify, throw, ret.
    fold msg.
    destruct (commitError env) as [e|]; simpl.
    + by rewrite Hc.
    + destruct (pushError env) as [e|]; simpl;
        by rewrite Hc, <- app_assoc.
Qed.

Lemma syncResources_single_commit_and_push_witness :
  calls (project
    (syncResources sampleEnv (mkDelete "tonina" "black-angel")
       [deploymentLyle] upsert emptyWorld).2) =
  [Commit (commitMessage sampleEnv "Update" (mkDelete "tonina" "black-angel"));
   Push].
Proof.
  pose proof (syncResources_single_commit_and_push sampleEnv
                (mkDelete "tonina" "black-angel")
                [deploymentLyle] upsert emptyWorld
                (mkWorld (mkProject
                   {[ "lovett-lyle-deployment.json" := "{Deployment lyle}" +:+ nl ]}
                   ∅ []) [])) as H.
  simpl in H. destruct H as (_ & _ & H).
  - vm_compute. reflexivity.
  - apply H. vm_compute. discriminate.
Defined.

(** *** Secrets in the sync repo *)

(** Whatever the kind of the resource, [resourceUpserted] writes the
    serialization of the resource it was given into one file. *)
Lemma resourceUpserted_content env r fs (w w' : World) :
  resourceUpserted env r fs w = (Ok tt, w') ->
  exists path,
    files (project w') =
      <[path := match fs with
                | Some f => if isYamlPath (file f) then safeDump env r
                            else stringifySpec env r
                | None => stringifySpec env r
                end]> (files (project w)).
Proof.
  unfold resourceUpserted. destruct fs as [f|].
  - intros [= <-]. by exists (file f).
  - unfold bind, lift, specFileBasename, metadataFor.
    destruct (metadata r); [simpl|done]. destruct (kind r); [|done].
    match goal with
    | |- context [freshSpecPath ?a ?b ?c ?d ?e] =>
        destruct (freshSpecPath a b c d e) as [[path gs]|]
    end; [|done].
    intros [= <-]. by exists path.
Qed.

(** C1. An upsert batch holding the Secret "tonina", synchronized into
    an empty working copy with a secret key configured, writes one spec
    file, and its content is the serialization of the Secret as it was
    handed in: the key is not read and no value of [data] is encrypted.
    The test expects the two values encrypted. *)
Theorem syncApplication_writes_secret_unencrypted env creds key :
  files (project
    (syncApplication env
       (Some (mkSyncOptions (Some ("tonina", "black-angel")) creds (Some key)))
       (mkDelete "tonina" "black-angel") [secretTonina] upsert emptyWorld).2) =
  {[ "black-angel-tonina-secret.json" := stringify env secretTonina +:+ nl ]}.
Proof.
  destruct env as [parse str dump tag aname [ce|] [pe|]]; vm_compute; reflexivity.
Qed.

End SyncFacts.

(** ** sync/diff.ts *)

Module DiffFacts.
Import Diff Samples.Changes.

Lemma split_field (f rest : string) :
  nulFree f = true -> split NUL (f +:+ String NUL rest) = f :: split NUL rest.
Proof.
  induction f as [|c f IH]; simpl; intros H.
  - done.
  - apply andb_true_iff in H as [Hc Hf]. apply negb_true_iff in Hc.
    rewrite Hc. by rewrite (IH Hf).
Qed.

Lemma parseFields_render (sha0 : string) (entries : list (Status * string)) :
  Forall (fun e => nulFree e.2 = true) entries ->
  parseFields sha0 (split NUL (render entries)) = records sha0 entries.
Proof.
  induction 1 as [|[st p] es Hp Hes IH]; [done|].
  simpl render. rewrite split_field by by destruct st.
  rewrite split_field by done.
  unfold records. simpl. fold (records sha0 es). rewrite <- IH. by destruct st.
Qed.

Lemma filter_split_Permutation {A} (f : A -> bool) (l : list A) :
  List.filter f l ++ List.filter (fun x => negb (f x)) l ≡ₚ l.
Proof.
  induction l as [|x l IH]; simpl; [done|].
  destruct (f x); simpl.
  - by rewrite IH.
  - by rewrite <- Permutation_middle, IH.
Qed.

Lemma StronglySorted_filter {A} (R : relation A) (f : A -> bool) (l : list A) :
  StronglySorted R l -> StronglySorted R (List.filter f l).
Proof.
  induction 1 as [|x l Hl IH Hx]; simpl; [constructor|].
  destruct (f x); [|done]. constructor; [done|].
  rewrite List.Forall_forall in *. intros y Hy.
  apply filter_In in Hy as [Hy _]. by apply Hx.
Qed.

Lemma filter_twice {A} (f : A -> bool) (l : list A) :
  List.filter f (List.filter f l) = List.filter f l.
Proof. apply forallb_filter_id, forallb_filter. Qed.

Lemma filter_opposite {A} (f : A -> bool) (l : list A) :
  List.filter f (List.filter (fun x => negb (f x)) l) = [].
Proof.
  induction l as [|x l IH]; simpl; [done|].
  destruct (f x) eqn:E; simpl; [done|]. by rewrite E.
Qed.

Lemma filter_opposite_neg {A} (f : A -> bool) (l : list A) :
  List.filter (fun x => negb (f x)) (List.filter f l) = [].
Proof.
  induction l as [|x l IH]; simpl; [done|].
  destruct (f x) eqn:E; simpl; [|done]. by rewrite E.
Qed.

Lemma filter_Forall {A} (f : A -> bool) (l : list A) :
  Forall (fun x => f x = true) (List.filter f l).
Proof.
  rewrite List.Forall_forall. intros x Hx. by apply filter_In in Hx as [_ ?].
Qed.

Section Ordered.

Variable pathLeb : string -> string -> bool.
Hypothesis pathLeb_total : forall a b, pathLeb a b = true \/ pathLeb b a = true.
Hypothesis pathLeb_trans :
  forall a b c, pathLeb a b = true -> pathLeb b c = true -> pathLeb a c = true.

#[local] Instance byPath_total : Total (byPath pathLeb).
Proof. intros a b. apply pathLeb_total. Qed.

#[local] Instance byPath_trans : Transitive (byPath pathLeb).
Proof. intros a b c. apply pathLeb_trans. Qed.

(** C3, as the tests have it.  For a diff of add, modify and delete
    entries, the change records are those of the entries that are spec
    files, a D entry giving a "delete" and an A or M entry an "apply";
    the deletes come first and then the applies, and each of the two
    groups is sorted by path in ascending order. *)
Theorem parseNameStatusDiff_deletes_then_applies
    (sha0 : string) (entries : list (Status * string)) :
  Forall (fun e => nulFree e.2 = true) entries ->
  let r := parseNameStatusDiff pathLeb sha0 (render entries) in
  r ≡ₚ records sha0 entries /\
  r = List.filter isDelete r ++ List.filter (fun d => negb (isDelete d)) r /\
  Forall (fun d => change d = delete) (List.filter isDelete r) /\
  Forall (fun d => change d = apply)
    (List.filter (fun d => negb (isDelete d)) r) /\
  StronglySorted (byPath pathLeb) (List.filter isDelete r) /\
  StronglySorted (byPath pathLeb) (List.filter (fun d => negb (isDelete d)) r).
Proof.
  intros Hnul r. subst r. unfold parseNameStatusDiff.
  rewrite (parseFields_render _ _ Hnul).
  set (sorted := merge_sort (byPath pathLeb) (records sha0 entries)).
  assert (Hs : StronglySorted (byPath pathLeb) sorted).
  { apply StronglySorted_merge_sort; apply _. }
  set (ds := List.filter isDelete sorted).
  set (ap := List.filter (fun d => negb (isDelete d)) sorted).
  assert (Hds : List.filter isDelete (ds ++ ap) = ds).
  { subst ds ap. rewrite List.filter_app, filter_twice, filter_opposite.
    apply app_nil_r. }
  assert (Hap : List.filter (fun d => negb (isDelete d)) (ds ++ ap) = ap).
  { subst ds ap. by rewrite List.filter_app, filter_twice, filter_opposite_neg. }
  rewrite Hds, Hap. repeat split.
  - subst ds ap. rewrite filter_split_Permutation. apply merge_sort_Permutation.
  - eapply Forall_impl; [apply filter_Forall|].
    intros d. unfold isDelete. by destruct (change d).
  - eapply Forall_impl; [apply (filter_Forall (fun d => negb (isDelete d)))|].
    intros d. unfold isDelete. by destruct (change d).
  - by apply StronglySorted_filter.
  - by apply StronglySorted_filter.
Qed.

End Ordered.

(** *** The order of characters *)

Lemma codeUnitLeb_total (a b : string) :
  codeUnitLeb a b = true \/ codeUnitLeb b a = true.
Proof. apply String.leb_total. Qed.

Lemma ascii_compare_refl (c : ascii) : Ascii.compare c c = Eq.
Proof. apply N.compare_refl. Qed.

Lemma ascii_compare_lt_trans (a b c : ascii) :
  Ascii.compare a b = Lt -> Ascii.compare b c = Lt -> Ascii.compare a c = Lt.
Proof.
  unfold Ascii.compare. rewrite !N.compare_lt_iff. apply N.lt_trans.
Qed.

Lemma codeUnitLeb_trans (a b c : string) :
  codeUnitLeb a b = true -> codeUnitLeb b c = true -> codeUnitLeb a c = true.
Proof.
  unfold codeUnitLeb, String.leb. revert b c.
  induction a as [|x a IH]; intros [|y b] [|z c]; simpl; try done.
  destruct (Ascii.compare x y) eqn:Exy; [| |done];
    destruct (Ascii.compare y z) eqn:Eyz; try done.
  - apply Ascii.compare_eq_iff in Exy as ->.
    apply Ascii.compare_eq_iff in Eyz as ->.
    rewrite ascii_compare_refl. apply IH.
  - apply Ascii.compare_eq_iff in Exy as ->. by rewrite Eyz.
  - apply Ascii.compare_eq_iff in Eyz as <-. by rewrite Exy.
  - by rewrite (ascii_compare_lt_trans _ _ _ Exy Eyz).
Qed.

(** *** The tests of [parseNameStatusDiff] *)

Example parse_nothing :
  List.map (parseNameStatusDiff codeUnitLeb testSha)
    [""; Application.nl; String NUL ""; String NUL Application.nl] =
  [[]; []; []; []].
Proof. reflexivity. Qed.

Example parse_valid_input :
  parseNameStatusDiff codeUnitLeb testSha (render validEntries) =
    expectedChanges /\
  parseNameStatusDiff codeUnitLeb testSha
    (render validEntries +:+ Application.nl) = expectedChanges.
Proof. split; vm_compute; reflexivity. Qed.

Example parse_sorts_the_paths :
  parseNameStatusDiff codeUnitLeb testSha (render sortEntries) =
    expectedChanges.
Proof. vm_compute. reflexivity. Qed.

(** The change records of the diff of the test "should sort the paths"
    are not in ascending order of path: the delete of "b.yml" comes
    before the apply of "aa.json". *)
Lemma parseNameStatusDiff_not_sorted_by_path :
  ~ Sorted (byPath codeUnitLeb)
      (parseNameStatusDiff codeUnitLeb testSha (render sortEntries)).
Proof.
  rewrite parse_sorts_the_paths. unfold expectedChanges. intros H.
  apply Sorted_inv in H as [H _]. apply Sorted_inv in H as [_ H].
  apply HdRel_inv in H. vm_compute in H. discriminate.
Qed.

Lemma parseNameStatusDiff_deletes_then_applies_witness :
  let r := parseNameStatusDiff codeUnitLeb testSha (render sortEntries) in
  r ≡ₚ records testSha sortEntries /\
  r = List.filter isDelete r ++ List.filter (fun d => negb (isDelete d)) r /\
  Forall (fun d => change d = delete) (List.filter isDelete r) /\
  Forall (fun d => change d = apply)
    (List.filter (fun d => negb (isDelete d)) r) /\
  StronglySorted (byPath codeUnitLeb) (List.filter isDelete r) /\
  StronglySorted (byPath codeUnitLeb)
    (List.filter (fun d => negb (isDelete d)) r).
Proof.
  apply (parseNameStatusDiff_deletes_then_applies codeUnitLeb
           codeUnitLeb_total codeUnitLeb_trans testSha sortEntries).
  repeat constructor.
Defined.

End DiffFacts.

(** ** kubernetes/clients.ts *)

Module ClientsFacts.
Import Clients.

Section Patch.

Context {O R Val : Type}.
Implicit Types (patcher : list Val -> Async (Api O) R) (api : Api O).

(** When the patch returns, the headers are those of before the call
    and the rest of the client is as the patch left it. *)
Lemma patchWithHeaders_returns patcher args api rv api' :
  patcher args
    (setDefaultHeaders (<["Content-Type" := patchContentType]>
                          (defaultHeaders api)) api) = (Ok rv, api') ->
  patchWithHeaders patcher args api =
    (Ok rv, mkApi (defaultHeaders api) (others api')).
Proof.
  intros H. unfold patchWithHeaders, bind, get, modify, ret. simpl.
  unfold patchContentType in H. by rewrite H.
Qed.

(** When the patch throws, the call ends there: the client is left as
    the patch left it. *)
Lemma patchWithHeaders_throws patcher args api e api' :
  patcher args
    (setDefaultHeaders (<["Content-Type" := patchContentType]>
                          (defaultHeaders api)) api) = (Err e, api') ->
  patchWithHeaders patcher args api = (Err e, api').
Proof.
  intros H. unfold patchWithHeaders, bind, get, modify, ret. simpl.
  unfold patchContentType in H. by rewrite H.
Qed.

(** C4. A patch that throws and touches nothing of the client leaves
    [defaultHeaders] with the patch content type: the headers of before
    the call are not put back. *)
Theorem patchWithHeaders_keeps_patch_header_on_throw
    (e : JsError) (args : list Val) (h : gmap string string) (o : O) :
  h !! "Content-Type" <> Some patchContentType ->
  let api := mkApi h o in
  let out := patchWithHeaders (R:=R) (fun _ => throw e) args api in
  out.1 = Err e /\
  defaultHeaders out.2 = <["Content-Type" := patchContentType]> h /\
  defaultHeaders out.2 <> defaultHeaders api /\
  others out.2 = others api.
Proof.
  intros Hh api out. subst out.
  rewrite (patchWithHeaders_throws _ args api e
             (setDefaultHeaders (<["Content-Type" := patchContentType]> h) api))
    by done.
  simpl. repeat split. intros E. apply Hh. rewrite <- E.
  apply lookup_insert_eq.
Qed.

End Patch.

Lemma patchWithHeaders_keeps_patch_header_on_throw_witness :
  defaultHeaders
    (patchWithHeaders (O:=unit) (R:=unit) (Val:=string)
       (fun _ => throw (Error "HTTP request failed")) ["tonina"; "black-angel"]
       (mkApi ∅ tt)).2 =
  {[ "Content-Type" := patchContentType ]}.
Proof.
  apply (patchWithHeaders_keeps_patch_header_on_throw (R:=unit)
           (Error "HTTP request failed") ["tonina"; "black-angel"] ∅ tt).
  rewrite lookup_empty. discriminate.
Defined.

End ClientsFacts.

(** ** encrypt and decrypt *)

Module SecretFacts.
Import Secret Samples.Crypto.

Lemma length_toHex (b : Buffer) : List.length (toHex b) = 2 * List.length b.
Proof. induction b as [|x b IH]; simpl; [done|]. rewrite IH. lia. Qed.

Section WithCrypto.

Variable lib : NodeCrypto.
Hypothesis laws : NodeCryptoLaws lib.

Lemma deriveKey_nonempty (key : JsString) (n : nat) :
  key <> [] -> deriveKey lib key n = Ok (scrypt lib key (saltOf key) n).
Proof.
  intros Hk. unfold deriveKey. destruct key as [|c key]; [done|]. done.
Qed.

Lemma derivedKey_hex_nonempty (key : JsString) :
  toHex (derivedKeyOf lib key) <> [].
Proof.
  intros E. apply (f_equal (@List.length N)) in E.
  rewrite length_toHex in E. unfold derivedKeyOf in E.
  rewrite (scrypt_length lib laws) in E. done.
Qed.

Lemma encrypt_eq (text key : JsString) :
  key <> [] ->
  encrypt lib text key =
    res_bind (cipheriv lib (derivedKeyOf lib key) (ivOf lib key) (utf8Bytes lib text))
      (fun encrypted => Ok (base64String lib encrypted)).
Proof.
  intros Hk. unfold encrypt. rewrite (deriveKey_nonempty key 32 Hk).
  cbn [res_bind]. fold (derivedKeyOf lib key).
  by rewrite (deriveKey_nonempty _ 16 (derivedKey_hex_nonempty key)).
Qed.

Lemma decrypt_eq (text key : JsString) :
  key <> [] ->
  decrypt lib text key =
    res_bind (decipheriv lib (derivedKeyOf lib key) (ivOf lib key)
                (base64Bytes lib text))
      (fun decrypted => Ok (utf8String lib decrypted)).
Proof.
  intros Hk. unfold decrypt. rewrite (deriveKey_nonempty key 32 Hk).
  cbn [res_bind]. fold (derivedKeyOf lib key).
  by rewrite (deriveKey_nonempty _ 16 (derivedKey_hex_nonempty key)).
Qed.

(** The empty key is refused: building its salt throws. *)
Lemma encrypt_empty_key (text : JsString) :
  encrypt lib text [] = Err (RangeError "Invalid count value: Infinity").
Proof. reflexivity. Qed.

(** C5. For a non-empty text without unpaired surrogate and a
    non-empty key, [encrypt] returns a ciphertext and [decrypt] of that
    ciphertext with the same key returns the text.  The ciphertext is
    the base64 of the text enciphered under a key and an initialization
    vector that are computed from the passphrase alone: the key by
    scrypt from the passphrase with the first sixteen characters of the
    repeated passphrase as salt, the vector in the same way from the
    hex of the key; nothing random enters, so every call of [encrypt]
    on this text and passphrase returns this ciphertext. *)
Theorem decrypt_encrypt_round_trip (text key : JsString) :
  text <> [] -> key <> [] -> wellFormed text = true ->
  let salt := substring0 16 (Secret.repeat key (16 / List.length key + 1)) in
  let derivedKey := scrypt lib key salt 32 in
  let hex := toHex derivedKey in
  let iv :=
    scrypt lib hex
      (substring0 16 (Secret.repeat hex (16 / List.length hex + 1))) 16 in
  exists encrypted,
    cipheriv lib derivedKey iv (utf8Bytes lib text) = Ok encrypted /\
    encrypt lib text key = Ok (base64String lib encrypted) /\
    decrypt lib (base64String lib encrypted) key = Ok text.
Proof.
  intros _ Hk Hwf. cbv zeta.
  change (exists encrypted,
            cipheriv lib (derivedKeyOf lib key) (ivOf lib key)
              (utf8Bytes lib text) = Ok encrypted /\
            encrypt lib text key = Ok (base64String lib encrypted) /\
            decrypt lib (base64String lib encrypted) key = Ok text).
  destruct (cipher_inverse lib laws (derivedKeyOf lib key) (ivOf lib key)
              (utf8Bytes lib text)) as (c & Hc & Hd).
  { apply (scrypt_length lib laws). }
  { apply (scrypt_length lib laws). }
  exists c. split; [done|]. split.
  - by rewrite (encrypt_eq text key Hk), Hc.
  - rewrite (decrypt_eq _ key Hk), (base64_inverse lib laws), Hd. simpl.
    by rewrite (utf8_inverse lib laws _ Hwf).
Qed.

End WithCrypto.

(** *** The UTF-8 encoding of the sample *)

Lemma utf8Decode_cons (b0 : N) (r0 : list N) :
  utf8Decode (b0 :: r0) =
    if (b0 <? 0x80)%N then b0 :: utf8Decode r0
    else
      match r0 with
      | b1 :: r1 =>
          if valid2 b0 b1 then point2 b0 b1 :: utf8Decode r1
          else
            match r1 with
            | b2 :: r2 =>
                if valid3 b0 b1 b2 then point3 b0 b1 b2 :: utf8Decode r2
                else
                  match r2 with
                  | b3 :: r3 =>
                      if valid4 b0 b1 b2 b3
                      then unitsOf (point4 b0 b1 b2 b3) ++ utf8Decode r3
                      else 0xFFFD%N :: utf8Decode r0
                  | [] => 0xFFFD%N :: utf8Decode r0
                  end
            | [] => 0xFFFD%N :: utf8Decode r0
            end
      | [] => [0xFFFD%N]
      end.
Proof. by destruct r0. Qed.

(** Decoding the bytes of a code point gives its code units. *)
Lemma decode_point (cp : N) (rest : list N) :
  (cp < 0x110000)%N ->
  isHighSurrogate cp = false -> isLowSurrogate cp = false ->
  utf8Decode (encodePoint cp ++ rest) = unitsOf cp ++ utf8Decode rest.
Proof.
  intros Hcp Hh Hl. unfold encodePoint, unitsOf.
  destruct (N.ltb_spec cp 0x80) as [H1|H1].
  { cbn [app]. rewrite utf8Decode_cons. by decide_ltb. }
  destruct (N.ltb_spec cp 0x800) as [H2|H2].
  { cbn [app]. rewrite utf8Decode_cons.
    unfold valid2, isContinuation, point2. decide_ltb. cbn [andb app].
    f_equal. divlia. }
  destruct (N.ltb_spec cp 0x10000) as [H3|H3].
  { assert (E : point3 (0xE0 + cp / 0x1000) (0x80 + (cp / 0x40) mod 0x40)
                  (0x80 + cp mod 0x40) = cp) by (unfold point3; divlia).
    cbn [app]. rewrite utf8Decode_cons.
    unfold valid2, valid3, isContinuation.
    rewrite E, Hh, Hl. decide_ltb. by cbn [andb negb]. }
  assert (E : point4 (0xF0 + cp / 0x40000) (0x80 + (cp / 0x1000) mod 0x40)
                (0x80 + (cp / 0x40) mod 0x40) (0x80 + cp mod 0x40) = cp)
    by (unfold point4; divlia).
  cbn [app]. rewrite utf8Decode_cons.
  unfold valid2, valid3, valid4, isContinuation.
  rewrite E. decide_ltb. cbn [andb negb]. unfold unitsOf. by decide_ltb.
Qed.

(** The code point of a surrogate pair has the pair as code units. *)
Lemma unitsOf_pair (u l : N) :
  isHighSurrogate u = true -> isLowSurrogate l = true ->
  let cp := (0x10000 + (u - 0xD800) * 0x400 + (l - 0xDC00))%N in
  unitsOf cp = [u; l] /\ (cp < 0x110000)%N /\
  isHighSurrogate cp = false /\ isLowSurrogate cp = false.
Proof.
  unfold isHighSurrogate, isLowSurrogate, unitsOf. intros Hu Hl. bools.
  cbv zeta. decide_ltb. cbn [andb]. repeat split; [|divlia].
  f_equal; [divlia|f_equal; divlia].
Qed.

Lemma utf8Decode_utf8Encode (t : JsString) :
  wellFormed t = true -> utf8Decode (utf8Encode t) = t.
Proof.
  remember (List.length t) as n eqn:Hn. revert t Hn.
  induction n as [n IH] using lt_wf_ind. intros t Hn.
  destruct t as [|u t]; [done|]. cbn [wellFormed utf8Encode].
  destruct (isHighSurrogate u) eqn:Hu.
  - destruct t as [|l t]; [done|]. intros [Hl Ht]%andb_true_iff.
    rewrite Hl.
    destruct (unitsOf_pair u l Hu Hl) as (Hp & Hlt & Hh' & Hl').
    rewrite (decode_point _ _ Hlt Hh' Hl'), Hp. cbn [app].
    do 2 f_equal. apply (IH (List.length t)); [|done|done].
    simpl in Hn. lia.
  - intros [[Hl Hlt]%andb_true_iff Ht]%andb_true_iff.
    apply negb_true_iff in Hl. rewrite Hl.
    apply N.ltb_lt in Hlt.
    rewrite (decode_point u _ ltac:(lia) Hu Hl).
    unfold unitsOf. rewrite (proj2 (N.ltb_lt u 0x10000) Hlt). cbn [app].
    f_equal. apply (IH (List.length t)); [|done|done]. simpl in Hn. lia.
Qed.

Lemma to_N_byteOf (n : N) : (n < 256)%N -> Byte.to_N (byteOf n) = n.
Proof.
  intros H. unfold byteOf. destruct (Byte.of_N n) eqn:E.
  - simpl. by apply Byte.to_of_N.
  - apply Byte.of_N_None_iff in E. lia.
Qed.

Lemma byteOf_to_N (b : Byte.byte) : byteOf (Byte.to_N b) = b.
Proof. unfold byteOf. by rewrite Byte.of_to_N. Qed.

Lemma encodePoint_bytes (cp : N) :
  (cp < 0x110000)%N -> Forall (fun b => (b < 256)%N) (encodePoint cp).
Proof.
  intros H. unfold encodePoint.
  destruct (N.ltb_spec cp 0x80); [repeat constructor; lia|].
  destruct (N.ltb_spec cp 0x800); [repeat constructor; divlia|].
  destruct (N.ltb_spec cp 0x10000); repeat constructor; divlia.
Qed.

Lemma utf8Encode_bytes (t : JsString) :
  wellFormed t = true -> Forall (fun b => (b < 256)%N) (utf8Encode t).
Proof.
  remember (List.length t) as n eqn:Hn. revert t Hn.
  induction n as [n IH] using lt_wf_ind. intros t Hn.
  destruct t as [|u t]; [constructor|]. cbn [wellFormed utf8Encode].
  destruct (isHighSurrogate u) eqn:Hu.
  - destruct t as [|l t]; [done|]. intros [Hl Ht]%andb_true_iff.
    rewrite Hl. destruct (unitsOf_pair u l Hu Hl) as (_ & Hlt & _).
    apply Forall_app. split; [by apply encodePoint_bytes|].
    apply (IH (List.length t)); [|done|done]. simpl in Hn. lia.
  - intros [[Hl Hlt]%andb_true_iff Ht]%andb_true_iff.
    apply negb_true_iff in Hl. rewrite Hl. apply N.ltb_lt in Hlt.
    apply Forall_app. split; [apply encodePoint_bytes; lia|].
    apply (IH (List.length t)); [|done|done]. simpl in Hn. lia.
Qed.

Lemma map_to_N_byteOf (l : list N) :
  Forall (fun b => (b < 256)%N) l ->
  List.map Byte.to_N (List.map byteOf l) = l.
Proof.
  induction 1 as [|x l Hx _ IH]; simpl; [done|].
  by rewrite (to_N_byteOf x Hx), IH.
Qed.

Lemma sampleCrypto_laws : NodeCryptoLaws sampleCrypto.
Proof.
  split; simpl.
  - intros _ _ n. apply List.repeat_length.
  - intros k iv m -> ->. simpl. exists (List.rev m).
    by rewrite List.rev_involutive.
  - intros t Ht. rewrite (map_to_N_byteOf _ (utf8Encode_bytes t Ht)).
    by apply utf8Decode_utf8Encode.
  - intros b. induction b as [|x b IH]; simpl; [done|].
    by rewrite byteOf_to_N, IH.
Qed.

Lemma decrypt_encrypt_round_trip_witness :
  exists encrypted,
    cipheriv sampleCrypto (derivedKeyOf sampleCrypto (units "secret passphrase"))
      (ivOf sampleCrypto (units "secret passphrase"))
      (utf8Bytes sampleCrypto arbol) = Ok encrypted /\
    encrypt sampleCrypto arbol (units "secret passphrase") =
      Ok (base64String sampleCrypto encrypted) /\
    decrypt sampleCrypto (base64String sampleCrypto encrypted)
      (units "secret passphrase") = Ok arbol.
Proof.
  apply (decrypt_encrypt_round_trip sampleCrypto sampleCrypto_laws
           arbol (units "secret passphrase")); [discriminate..|reflexivity].
Defined.

(** A text that is one unpaired surrogate does not come back: it is
    encoded as U+FFFD, and U+FFFD is what [decrypt] returns. *)
Lemma decrypt_encrypt_unpaired_surrogate :
  utf8Bytes sampleCrypto [0xD800%N] = [Byte.xef; Byte.xbf; Byte.xbd] /\
  exists ciphertext,
    encrypt sampleCrypto [0xD800%N] (units "secret passphrase") =
      Ok ciphertext /\
    decrypt sampleCrypto ciphertext (units "secret passphrase") =
      Ok [0xFFFD%N] /\
    decrypt sampleCrypto ciphertext (units "secret passphrase") <>
      Ok [0xD800%N].
Proof.
  split; [reflexivity|].
  eexists. split; [vm_compute; reflexivity|].
  split; [vm_compute; reflexivity|]. vm_compute. discriminate.
Qed.

End SecretFacts.

(** ** sync/goals.ts *)

Module GoalsFacts.
Import Goals Samples.Push.

Section WithTag.

Variable commitTag : Configuration -> string.
Variable stringify : option SyncRepo -> string.

Lemma sameRepo_decide (p : PushListenerInvocation) (rr : RemoteRepoRef) :
  bool_decide (providerType (id p) = providerType rr) &&
  bool_decide (owner (id p) = owner rr) &&
  bool_decide (repo (id p) = repo rr) &&
  bool_decide (branch (id p) = branch rr) = true <-> sameRepo p rr.
Proof.
  unfold sameRepo. rewrite !andb_true_iff, !bool_decide_eq_true. tauto.
Qed.

(** C6. The push test exists when a sync repo is configured.  Run on a
    push, it throws when the sync repo of the configuration is not a
    resolved remote repository; otherwise it returns true exactly when
    provider type, owner, repo and branch of the push equal those of
    the sync repo and some commit of the push has a message that does
    not contain the commit tag. *)
Theorem isSyncRepoCommit_push_test
    (sdm0 : Configuration)
    (test : Configuration -> PushListenerInvocation -> result bool) :
  isSyncRepoCommit commitTag stringify sdm0 = Some test ->
  forall (sdm : Configuration) (p : PushListenerInvocation),
    match isRemoteRepo (configuredRepo sdm) with
    | None => exists e, test sdm p = Err e
    | Some rr =>
        exists b,
          test sdm p = Ok b /\
          (b = true <->
           sameRepo p rr /\
           exists c, In c (commits p) /\
                     includes (message c) (commitTag sdm) = false)
    end.
Proof.
  unfold isSyncRepoCommit. destruct (configuredRepo sdm0); [|done].
  intros [= <-] sdm p. unfold isSyncRepoCommitTest.
  destruct (isRemoteRepo (configuredRepo sdm)) as [rr|]; [|by eexists].
  pose proof (sameRepo_decide p rr) as Hs.
  destruct (_ && _) eqn:E in |- *.
  - eexists. split; [reflexivity|]. rewrite existsb_exists. split.
    + intros (c & Hc & Hm). apply negb_true_iff in Hm.
      split; [by apply Hs|]. by exists c.
    + intros [_ (c & Hc & Hm)]. exists c. by rewrite Hm.
  - exists false. split; [done|]. split; [done|].
    intros [H _]. apply Hs in H. congruence.
Qed.

End WithTag.

Lemma isSyncRepoCommit_push_test_witness :
  exists b,
    isSyncRepoCommitTest sampleTag (fun _ => "") sampleSdm samplePush = Ok b /\
    (b = true <->
     sameRepo samplePush sampleRepo /\
     exists c, In c (commits samplePush) /\
               includes (message c) (sampleTag sampleSdm) = false).
Proof.
  apply (isSyncRepoCommit_push_test sampleTag (fun _ => "") sampleSdm
           (isSyncRepoCommitTest sampleTag (fun _ => "")) eq_refl
           sampleSdm samplePush).
Defined.

End GoalsFacts.

(** ** kubernetes/application.ts *)

Module KubeAppFacts.
Import KubeApp Samples.Cluster.

Section WithCluster.

Context {Cluster Obj KubeConfig Clients : Type}.
Abbreviation Imports := (@Imports Cluster Obj KubeConfig Clients).

(** C10. When loading the Kubernetes configuration throws an error [e],
    [deleteApplication] throws a TypeError, raised by calling the
    string [e.message] as a function, and not [e] with a message
    prefixed by the context; [upsertApplication] throws [e] with its
    message prefixed by the context.  Neither touches the cluster. *)
Theorem deleteApplication_config_failure_is_TypeError
    (imp : Imports) (d a : KubernetesDelete) (fulfiller : string)
    (s : Cluster) (e : JsError) :
  loadKubeConfig imp = Err e ->
  deleteApplication imp d s =
    (Err (TypeError "e.message is not a function"), s) /\
  (forall out,
     deleteApplication imp d s = (Err out, s) ->
     out <> setMessage e
              ("Failed to load Kubernetes config to delete " +:+ ns d +:+ "/" +:+
               name d +:+ ": " +:+ Js.message e)) /\
  upsertApplication imp a fulfiller s =
    (Err (setMessage e
            ("Failed to load Kubernetes config to deploy " +:+ ns a +:+ "/" +:+
             name a +:+ ": " +:+ Js.message e)), s).
Proof.
  intros H.
  assert (Hd : deleteApplication imp d s =
               (Err (TypeError "e.message is not a function"), s)).
  { unfold deleteApplication, bind, try_catch, lift, throw. by rewrite H. }
  split; [done|]. split.
  - rewrite Hd. intros out [= <-]. unfold setMessage, TypeError.
    intros E. apply (f_equal Js.message) in E. discriminate E.
  - unfold upsertApplication, bind, try_catch, lift, throw. by rewrite H.
Qed.

(** C8, for a request whose Kubernetes configuration loads.  The five
    kinds are deleted in the order ingress, deployment, secrets,
    service, RBAC, each on the cluster as the one before left it,
    whether that one returned or threw.  The call throws exactly when
    one of them threw, and then the message lists the message of each
    failure in that order, joined by "; "; otherwise it returns the
    deleted objects. *)
Theorem deleteApplication_attempts_every_kind
    (imp : Imports) (d : KubernetesDelete) (s : Cluster) (config : KubeConfig) :
  loadKubeConfig imp = Ok config ->
  let req := mkRequest d (makeApiClients imp config) in
  let slug := ns d +:+ "/" +:+ name d in
  let r1 := one (deleteIngress imp req) s in
  let r2 := one (deleteDeployment imp req) r1.2 in
  let r3 := deleteSecrets imp req r2.2 in
  let r4 := one (deleteService imp req) r3.2 in
  let r5 := deleteRbac imp req r4.2 in
  let failures :=
    failure ("Failed to delete ingress " +:+ slug +:+ ": ") r1.1 ++
    failure ("Failed to delete deployment " +:+ slug +:+ ": ") r2.1 ++
    failure ("Failed to delete secrets of " +:+ slug +:+ ": ") r3.1 ++
    failure ("Failed to delete service " +:+ slug +:+ ": ") r4.1 ++
    failure ("Failed to delete RBAC resources for " +:+ slug +:+ ": ") r5.1 in
  let deleted :=
    deletedBy r1.1 ++ deletedBy r2.1 ++ deletedBy r3.1 ++ deletedBy r4.1 ++
    deletedBy r5.1 in
  deleteApplication imp d s =
    (match failures with
     | [] => Ok (defined deleted)
     | _ :: _ =>
         Err (Error ("Failed to delete application '" +:+
                     reqString imp (inl req) +:+ "': " +:+
                     join "; " failures))
     end, r5.2).
Proof.
  intros H req slug r1 r2 r3 r4 r5 failures deleted.
  unfold deleteApplication. unfold bind at 1.
  unfold try_catch at 1. unfold lift. rewrite H.
  fold req. fold slug.
  subst failures deleted. unfold attempt, try_catch, bind, ret, throw.
  fold r1. destruct r1 as [[d1|e1|[]] s1]; simpl in r2; simpl;
  fold r2; destruct r2 as [[d2|e2|[]] s2]; simpl in r3; simpl;
  fold r3; destruct r3 as [[d3|e3|[]] s3]; simpl in r4; simpl;
  fold r4; destruct r4 as [[d4|e4|[]] s4]; simpl in r5; simpl;
  fold r5; destruct r5 as [[d5|e5|[]] s5]; simpl;
  rewrite ?app_nil_r, <- ?app_assoc; reflexivity.
Qed.

End WithCluster.

(** *** A cluster that records the calls *)

(** When loading the Kubernetes configuration throws, no kind is
    attempted: the cluster sees no call. *)
Lemma deleteApplication_without_config_attempts_nothing :
  (deleteApplication (recordingImports (Err (Error "ENOENT")) []) tonina []).2
    = [] /\
  (deleteApplication (recordingImports (Err (Error "ENOENT")) []) tonina []).2
    <> ["ingress"; "deployment"; "secrets"; "service"; "rbac"].
Proof. split; [reflexivity|discriminate]. Qed.

Example deleteApplication_collects_failures :
  deleteApplication (recordingImports (Ok tt) ["deployment"; "service"])
    tonina [] =
  (Err (Error
     ("Failed to delete application '{}': " +:+
      "Failed to delete deployment black-angel/tonina: Forbidden; " +:+
      "Failed to delete service black-angel/tonina: Forbidden")),
   ["ingress"; "deployment"; "secrets"; "service"; "rbac"]).
Proof. reflexivity. Qed.

Example deleteApplication_returns_deleted :
  deleteApplication (recordingImports (Ok tt) []) tonina [] =
  (Ok ["ingress/tonina"; "deployment/tonina"; "secret/tonina"; "role/tonina"],
   ["ingress"; "deployment"; "secrets"; "service"; "rbac"]).
Proof. reflexivity. Qed.

Lemma deleteApplication_attempts_every_kind_witness :
  (deleteApplication (recordingImports (Ok tt) ["deployment"; "service"])
     tonina []).2 =
  ["ingress"; "deployment"; "secrets"; "service"; "rbac"].
Proof.
  rewrite (deleteApplication_attempts_every_kind
             (recordingImports (Ok tt) ["deployment"; "service"]) tonina []
             tt eq_refl).
  reflexivity.
Defined.

Lemma deleteApplication_config_failure_is_TypeError_witness :
  deleteApplication (recordingImports (Err (Error "ENOENT")) []) tonina [] =
    (Err (TypeError "e.message is not a function"), []) /\
  upsertApplication (recordingImports (Err (Error "ENOENT")) []) tonina
      "@atomist/k8s-sdm" [] =
    (Err (Error
       "Failed to load Kubernetes config to deploy black-angel/tonina: ENOENT"),
     []).
Proof.
  destruct (deleteApplication_config_failure_is_TypeError
              (recordingImports (Err (Error "ENOENT")) []) tonina tonina
              "@atomist/k8s-sdm" [] (Error "ENOENT") eq_refl)
    as (Hd & _ & Hu).
  split; [exact Hd|exact Hu].
Defined.

End KubeAppFacts.

(** * Further properties *)

(** ** sync/application.ts: names *)

Module NamingFacts.
Import Application JsFacts.

Lemma lowerChar_not_upper (c : ascii) : isUpper (lowerChar c) = false.
Proof. by destruct c as [[] [] [] [] [] [] [] []]. Qed.

Lemma toLowerCase_chars (s : string) (c : ascii) :
  In c (list_ascii_of_string (toLowerCase s)) -> isUpper c = false.
Proof.
  induction s as [|x s IH]; simpl; [done|].
  intros [<-|H]; [apply lowerChar_not_upper|by apply IH].
Qed.

(** The base name of a spec file holds no upper-case letter. *)
Theorem specFileBasename_lower_case
    (resource : KubernetesObject) (base : string) (c : ascii) :
  specFileBasename (X:=Empty_set) resource = Ok base ->
  In c (list_ascii_of_string base) -> isUpper c = false.
Proof.
  unfold specFileBasename, metadataFor.
  destruct (metadata resource); [simpl|done].
  destruct (kind resource); [|done].
  intros [= <-]. apply toLowerCase_chars.
Qed.

Lemma specFileBasename_lower_case_witness :
  List.Forall (fun c => isUpper c = false)
    (list_ascii_of_string "lovett-lyle-service-account").
Proof.
  apply List.Forall_forall. intros c Hc.
  exact (specFileBasename_lower_case
           (mkObject (Some "v1") (Some "ServiceAccount")
              (Some (mkMeta (Some "Lyle") (Some "Lovett") [])) [])
           "lovett-lyle-service-account" c eq_refl Hc).
Defined.

(** [specFileBasename] throws exactly when the resource has no
    metadata or no kind, and a namespace that is the empty string is
    left out of the name like a namespace that is undefined. *)
Theorem specFileBasename_edges
    (resource : KubernetesObject) (name0 : option string)
    (labels0 : list (string * string)) :
  ((exists e, specFileBasename (X:=Empty_set) resource = Err e) <->
   metadata resource = None \/ kind resource = None) /\
  specFileBasename (X:=Empty_set)
    (mkObject (apiVersion resource) (kind resource)
       (Some (mkMeta name0 (Some "") labels0)) (data resource)) =
  specFileBasename
    (mkObject (apiVersion resource) (kind resource)
       (Some (mkMeta name0 None labels0)) (data resource)).
Proof.
  split; [|done]. unfold specFileBasename, metadataFor.
  destruct (metadata resource) as [m|]; simpl.
  - destruct (kind resource); split.
    + by intros [e ?].
    + by intros [?|?].
    + auto.
    + intros _. by eexists.
  - split; [auto|]. intros _. by eexists.
Qed.

End NamingFacts.

(** ** sync/application.ts: the files of the working copy *)

Module WorkingCopyFacts.
Import Application WorkingCopy JsFacts ApplicationFacts.

(** What the loop that looks for a free name returns: a path that is
    not in the working copy, either the first candidate or one made
    with an identifier that was drawn, and the identifiers left. *)
Lemma freshSpecPath_free fs specRoot specExt gs specPath path gs' :
  freshSpecPath fs specRoot specExt gs specPath = Some (path, gs') ->
  fs !! path = None /\
  (path = specPath /\ gs' = gs \/
   exists g, In g gs /\
             path = specRoot +:+ "-" +:+ firstSegment g +:+ specExt).
Proof.
  revert specPath. induction gs as [|g gs IH]; intros specPath; simpl.
  - destruct (fs !! specPath) eqn:E; [done|]. intros [= <- <-]. auto.
  - destruct (fs !! specPath) eqn:E.
    + intros H. apply IH in H as [Hfree [[-> ->]|(g' & Hg & ->)]].
      * split; [done|]. right. exists g. auto.
      * split; [done|]. right. exists g'. auto.
    + intros [= <- <-]. auto.
Qed.

(** A resource without spec file gets a new file: the path was not in
    the working copy, its name is the base name of the resource,
    possibly followed by a hyphen and the first segment of a drawn
    identifier, with extension .json; its content is the JSON of the
    resource; every file that was there keeps its content. *)
Theorem resourceUpserted_adds_new_file
    env (resource : KubernetesObject) (w w' : World) :
  resourceUpserted env resource None w = (Ok tt, w') ->
  exists base suffix,
    specFileBasename (X:=Empty_set) resource = Ok base /\
    (suffix = "" \/
     exists g, In g (guids w) /\ suffix = "-" +:+ firstSegment g) /\
    files (project w) !! (base +:+ suffix +:+ ".json") = None /\
    files (project w') =
      <[base +:+ suffix +:+ ".json" := stringifySpec env resource]>
        (files (project w)) /\
    (forall p c, files (project w) !! p = Some c ->
                 files (project w') !! p = Some c).
Proof.
  unfold resourceUpserted, bind, lift, specFileBasename, metadataFor.
  destruct (metadata resource) as [m|]; [simpl|done].
  destruct (kind resource) as [k|]; [|done].
  set (base := toLowerCase _).
  destruct (freshSpecPath _ _ _ _ _) as [[path gs]|] eqn:E; [|done].
  intros [= <-]. apply freshSpecPath_free in E as [Hfree Hpath].
  assert (Hs : exists suffix,
             path = base +:+ suffix +:+ ".json" /\
             (suffix = "" \/
              exists g, In g (guids w) /\ suffix = "-" +:+ firstSegment g)).
  { destruct Hpath as [[-> _]|(g & Hg & ->)].
    - exists "". auto.
    - exists ("-" +:+ firstSegment g). split; [done|]. right. by exists g. }
  destruct Hs as (suffix & -> & Hsuffix).
  exists base, suffix. repeat split; try done.
  intros p c Hp. simpl. rewrite lookup_insert_ne; [done|]. congruence.
Qed.

(** When the name of the resource is free, it is taken as it is and no
    identifier is drawn. *)
Theorem resourceUpserted_takes_free_name
    env (resource : KubernetesObject) (w : World) (base : string) :
  specFileBasename (X:=Empty_set) resource = Ok base ->
  files (project w) !! (base +:+ ".json") = None ->
  resourceUpserted env resource None w =
    (Ok tt,
     mkWorld (mkProject
                (<[base +:+ ".json" := stringifySpec env resource]>
                   (files (project w)))
                (head (project w)) (calls (project w)))
       (guids w)).
Proof.
  unfold resourceUpserted, bind, lift, specFileBasename, metadataFor.
  destruct (metadata resource) as [m|]; [simpl|done].
  destruct (kind resource) as [k|]; [|done]. intros [= <-] Hfree.
  destruct (guids w) as [|g gs] eqn:Eg; simpl; by rewrite Hfree.
Qed.

(** Loading the specs changes nothing and gives the files of the
    working copy that are at its root, have a spec extension and parse;
    a file that does not parse is left out. *)
Theorem loadSpecs_entries env (w : World) :
  exists specs,
    loadSpecs env w = (Ok specs, w) /\
    forall p o,
      In (mkFileSpec p o) specs <->
      exists c, files (project w) !! p = Some c /\
                k8sSpecGlob p = true /\
                parseKubernetesSpecFile env p c = Ok o.
Proof.
  eexists. split; [reflexivity|]. intros p o.
  rewrite <- list_elem_of_In, list_elem_of_omap. split.
  - intros ([p' c] & Hin & H). apply elem_of_map_to_list in Hin. simpl in H.
    destruct (k8sSpecGlob p') eqn:Eg; [|done].
    destruct (parseKubernetesSpecFile env p' c) as [o'| |] eqn:Ep; [|done|done].
    injection H as -> ->. by exists c.
  - intros (c & Hc & Hg & Hp). exists (p, c). split.
    + by apply elem_of_map_to_list.
    + simpl. by rewrite Hg, Hp.
Qed.

(** *** Batches *)

Lemma for_of_cons {X S A} (x : A) (xs : list A) (body : A -> M X S unit)
    (s : S) :
  for_of (x :: xs) body s =
    match body x s with
    | (Ok _, s1) => for_of xs body s1
    | (Err e, s1) => (Err e, s1)
    | (Unfinished u, s1) => (Unfinished u, s1)
    end.
Proof. reflexivity. Qed.

Lemma bind_lift {X S A B} (r : res X A) (k : A -> M X S B) (s : S) :
  (do a <- lift r; k a) s =
    match r with
    | Ok a => k a s
    | Err e => (Err e, s)
    | Unfinished u => (Unfinished u, s)
    end.
Proof. by destruct r. Qed.

Lemma processResources_eq env resources action (w : World) :
  processResources env resources action w =
    for_of resources
      (fun resource =>
         do fileSpec <- lift (matchSpec resource (specsOf env w));
         match action with
         | delete => resourceDeleted resource fileSpec
         | upsert => resourceUpserted env resource fileSpec
         end) w.
Proof. reflexivity. Qed.

(** When [matchSpec] returns for every resource of a delete batch, the
    batch returns; it removes the spec files that match a resource of
    the batch and touches no other file, draws no identifier and makes
    no Git call. *)
Theorem processResources_delete env resources (w : World) :
  Forall (fun resource =>
            exists found,
              matchSpec (X:=Empty_set) resource (specsOf env w) = Ok found)
    resources ->
  exists w',
    processResources env resources delete w = (Ok tt, w') /\
    guids w' = guids w /\
    calls (project w') = calls (project w) /\
    head (project w') = head (project w) /\
    forall p,
      files (project w') !! p =
        if existsb (fun resource =>
                      match matchSpec (X:=Empty_set) resource
                              (specsOf env w) with
                      | Ok (Some fs) => String.eqb (file fs) p
                      | _ => false
                      end) resources
        then None
        else files (project w) !! p.
Proof.
  rewrite processResources_eq. generalize (specsOf env w) as specs.
  intros specs Hall. revert w.
  induction Hall as [|r rs [found Hr] _ IH]; intros w.
  - exists w. by repeat split.
  - rewrite for_of_cons, bind_lift, (matchSpec_result (X:=unit)), Hr.
    destruct found as [fs|]; simpl; rewrite Hr.
    + destruct (IH (setFiles (base.delete (file fs)) w))
        as (w' & Hw' & Hg & Hc & Hh & Hf).
      exists w'. rewrite Hw'.
      repeat split; try done.
      intros p. rewrite Hf. simpl.
      destruct (String.eqb_spec (file fs) p) as [->|Hne]; simpl.
      * rewrite lookup_delete_eq. by destruct (existsb _ rs).
      * by rewrite lookup_delete_ne.
    + destruct (IH w) as (w' & Hw' & Hg & Hc & Hh & Hf).
      exists w'. by rewrite Hw'.
Qed.

(** Whatever becomes of an upsert batch, no file of the working copy
    is removed. *)
Theorem processResources_upsert_keeps_paths env resources (w : World) p :
  is_Some (files (project w) !! p) ->
  is_Some (files (project (processResources env resources upsert w).2) !! p).
Proof.
  rewrite processResources_eq. generalize (specsOf env w) as specs.
  intros specs. revert w.
  induction resources as [|r rs IH]; intros w Hp; [done|].
  rewrite for_of_cons, bind_lift.
  destruct (matchSpec r specs) as [found|e|x]; [|done|done].
  assert (Hstep : is_Some (files (project
            (resourceUpserted env r found w).2) !! p)).
  { unfold resourceUpserted. destruct found as [fs|]; simpl.
    - rewrite lookup_insert. by case_decide.
    - unfold bind, lift, specFileBasename, metadataFor.
      destruct (metadata r); [simpl|done]. destruct (kind r); [|done].
      destruct (freshSpecPath _ _ _ _ _) as [[path gs]|]; simpl; [|done].
      rewrite lookup_insert. by case_decide. }
  destruct (resourceUpserted env r found w) as [[[]|e|x] w1];
    simpl in *; try done. by apply IH.
Qed.

Lemma processResources_upsert_keeps_paths_witness :
  is_Some (files (project
    (processResources Samples.App.sampleEnv [Samples.App.deploymentLyle] upsert
       (mkWorld (mkProject {[ "README.md" := "sync repo" ]} ∅ []) [])).2)
    !! "README.md").
Proof.
  apply processResources_upsert_keeps_paths. by eexists.
Defined.

(** A working copy that is clean and up to date is left as it is: when
    every resource of an upsert batch has a spec file that already
    holds its serialization, [syncResources] returns without a change
    and without a Git call. *)
Theorem syncResources_up_to_date env app resources (w : World) :
  files (project w) = head (project w) ->
  Forall (fun resource =>
            exists fs,
              matchSpec (X:=Empty_set) resource (specsOf env w) =
                Ok (Some fs) /\
              files (project w) !! file fs =
                Some (specString env resource (file fs))) resources ->
  syncResources env app resources upsert w = (Ok tt, w).
Proof.
  intros Hclean Hall.
  assert (Hp : processResources env resources upsert w = (Ok tt, w)).
  { rewrite processResources_eq. generalize dependent (specsOf env w).
    intros specs Hall.
    induction Hall as [|r rs (fs & Hm & Hf) _ IH]; [done|].
    rewrite for_of_cons, bind_lift, (matchSpec_result (X:=unit)), Hm.
    simpl. unfold setContent, modify, setFiles.
    fold (specString env r (file fs)). rewrite (insert_id _ _ _ Hf).
    destruct w as [[f h c] g]. simpl in *. exact IH. }
  rewrite SyncFacts.syncResources_parts, Hp.
  by rewrite bool_decide_eq_true_2.
Qed.

(** A delete batch of resources that have no spec file changes nothing:
    on a clean working copy [syncResources] returns without a Git
    call. *)
Theorem syncResources_delete_absent env app resources (w : World) :
  files (project w) = head (project w) ->
  Forall (fun resource =>
            matchSpec (X:=Empty_set) resource (specsOf env w) = Ok None)
    resources ->
  syncResources env app resources delete w = (Ok tt, w).
Proof.
  intros Hclean Hall.
  assert (Hp : processResources env resources delete w = (Ok tt, w)).
  { rewrite processResources_eq. generalize dependent (specsOf env w).
    intros specs Hall.
    induction Hall as [|r rs Hm _ IH]; [done|].
    by rewrite for_of_cons, bind_lift, (matchSpec_result (X:=unit)), Hm. }
  rewrite SyncFacts.syncResources_parts, Hp.
  by rewrite bool_decide_eq_true_2.
Qed.

(** *** syncApplication *)

(** Without sync options, without a sync repo or with an empty batch,
    [syncApplication] returns at once: the clone is not touched. *)
Theorem syncApplication_nothing_to_do
    env (syncOptions : option SyncOptions) app resources action (w : World) :
  syncOptions = None \/
  (exists opts, syncOptions = Some opts /\ repo opts = None) \/
  resources = [] ->
  syncApplication env syncOptions app resources action w = (Ok tt, w).
Proof.
  unfold syncApplication.
  intros [->|[(opts & -> & Hr)| ->]]; [done|by rewrite Hr|].
  destruct syncOptions as [opts|]; [|done].
  by destruct (repo opts) as [[owner rname]|].
Qed.

Lemma syncApplication_nothing_to_do_witness :
  syncApplication Samples.App.sampleEnv
    (Some (mkSyncOptions None "token" (Some "key")))
    (mkDelete "tonina" "black-angel") [Samples.App.secretTonina] upsert
    Samples.App.emptyWorld = (Ok tt, Samples.App.emptyWorld).
Proof.
  apply syncApplication_nothing_to_do. right. left. by eexists.
Defined.

(** When the working copy is dirty after the batch and Git refuses the
    commit, [syncApplication] throws the error of Git; its message
    carries the context of [syncApplication] and then that of
    [syncResources]. *)
Theorem syncApplication_commit_refused
    env opts owner rname app resources action (w w1 : World) e :
  repo opts = Some (owner, rname) ->
  resources <> [] ->
  processResources env resources action w = (Ok tt, w1) ->
  files (project w1) <> head (project w1) ->
  commitError env = Some e ->
  (syncApplication env (Some opts) app resources action w).1 =
    Err (mkError (errName e)
           ("Failed to perform sync resources from " +:+ appName env app +:+
            " to sync repo " +:+ owner +:+ "/" +:+ rname +:+ ": " +:+
            "Failed to commit and push resource changes to sync repo: " +:+
            message e)).
Proof.
  intros Hr Hne Hp Hd He. unfold syncApplication. rewrite Hr.
  destruct resources as [|r rs]; [done|].
  change (List.length (r :: rs) <? 1)%nat with false. cbv iota.
  unfold try_catch at 1.
  rewrite SyncFacts.syncResources_parts, Hp.
  rewrite bool_decide_eq_false_2 by done.
  unfold commitAndPush, commit, push, try_catch, bind, modify, throw.
  by rewrite He.
Qed.

Lemma syncApplication_commit_refused_witness :
  (syncApplication
     (mkEnv (fun _ _ => Err (Error "Unexpected token"))
        (fun _ => "{}") (fun _ => "") "[tag]"
        (fun a => app_ns a +:+ "/" +:+ app_name a)
        (Some (Error "nothing to commit")) None)
     (Some (mkSyncOptions (Some ("tonina", "specs")) "token" None))
     (mkDelete "tonina" "black-angel") [Samples.App.deploymentLyle] upsert
     Samples.App.emptyWorld).1 =
  Err (Error
    ("Failed to perform sync resources from black-angel/tonina to sync repo " +:+
     "tonina/specs: Failed to commit and push resource changes to sync " +:+
     "repo: nothing to commit")).
Proof.
  pose proof (syncApplication_commit_refused
    (mkEnv (fun _ _ => Err (Error "Unexpected token"))
       (fun _ => "{}") (fun _ => "") "[tag]"
       (fun a => app_ns a +:+ "/" +:+ app_name a)
       (Some (Error "nothing to commit")) None)
    (mkSyncOptions (Some ("tonina", "specs")) "token" None)
    "tonina" "specs" (mkDelete "tonina" "black-angel")
    [Samples.App.deploymentLyle] upsert Samples.App.emptyWorld
    (mkWorld (mkProject
       {[ "lovett-lyle-deployment.json" := "{}" +:+ nl ]} ∅ []) [])
    (Error "nothing to commit") eq_refl) as H.
  apply H; [discriminate|vm_compute; reflexivity| |reflexivity].
  vm_compute. discriminate.
Defined.

(** *** Witnesses *)

Lemma resourceUpserted_adds_new_file_witness :
  exists path,
    ({[ "lovett-lyle-deployment.json" := "{}" ]} : gmap string string)
      !! path = None /\
    ({[ "lovett-lyle-deployment-3f2a.json" :=
          stringifySpec Samples.App.sampleEnv Samples.App.deploymentLyle;
        "lovett-lyle-deployment.json" := "{}" ]} : gmap string string) =
      <[path := stringifySpec Samples.App.sampleEnv
                  Samples.App.deploymentLyle]>
        {[ "lovett-lyle-deployment.json" := "{}" ]}.
Proof.
  assert (H : resourceUpserted Samples.App.sampleEnv
                Samples.App.deploymentLyle None
                (mkWorld (mkProject
                   {[ "lovett-lyle-deployment.json" := "{}" ]} ∅ [])
                   ["3f2a-11e9"; "77b0-4c1d"]) =
              (Ok tt,
               mkWorld (mkProject
                  {[ "lovett-lyle-deployment-3f2a.json" :=
                       stringifySpec Samples.App.sampleEnv
                         Samples.App.deploymentLyle;
                     "lovett-lyle-deployment.json" := "{}" ]} ∅ [])
                  ["77b0-4c1d"])).
  { vm_compute. reflexivity. }
  destruct (resourceUpserted_adds_new_file _ _ _ _ H)
    as (base & suffix & _ & _ & Hfree & Hfiles & _).
  exists (base +:+ suffix +:+ ".json"). split; [exact Hfree|exact Hfiles].
Defined.

Lemma resourceUpserted_takes_free_name_witness :
  resourceUpserted Samples.App.sampleEnv Samples.App.deploymentLyle None
    (mkWorld (mkProject ∅ ∅ []) ["3f2a-11e9"]) =
  (Ok tt,
   mkWorld (mkProject
              {[ "lovett-lyle-deployment.json" :=
                   stringifySpec Samples.App.sampleEnv
                     Samples.App.deploymentLyle ]} ∅ [])
     ["3f2a-11e9"]).
Proof.
  apply (resourceUpserted_takes_free_name Samples.App.sampleEnv
           Samples.App.deploymentLyle
           (mkWorld (mkProject ∅ ∅ []) ["3f2a-11e9"])
           "lovett-lyle-deployment" eq_refl).
  reflexivity.
Defined.

Lemma processResources_delete_witness :
  exists w',
    processResources Samples.Synced.readingEnv
      [Samples.App.deploymentLyle; Samples.App.secretTonina] delete
      Samples.Synced.syncedWorld = (Ok tt, w') /\
    files (project w') !! "lovett-lyle-deployment.json" = None /\
    calls (project w') = [Commit "first"; Push].
Proof.
  destruct (processResources_delete Samples.Synced.readingEnv
              [Samples.App.deploymentLyle; Samples.App.secretTonina]
              Samples.Synced.syncedWorld)
    as (w' & Hw' & _ & Hc & _ & Hf).
  { constructor; [|constructor; [|constructor]].
    - exists (Some (mkFileSpec "lovett-lyle-deployment.json"
                      Samples.App.deploymentLyle)).
      vm_compute. reflexivity.
    - exists None. vm_compute. reflexivity. }
  exists w'. split; [exact Hw'|]. split; [|exact Hc].
  rewrite Hf. vm_compute. reflexivity.
Defined.

Lemma syncResources_up_to_date_witness :
  syncResources Samples.Synced.readingEnv (mkDelete "tonina" "black-angel")
    [Samples.App.deploymentLyle] upsert Samples.Synced.syncedWorld = (Ok tt, Samples.Synced.syncedWorld).
Proof.
  apply syncResources_up_to_date; [reflexivity|].
  constructor; [|constructor].
  exists (mkFileSpec "lovett-lyle-deployment.json" Samples.App.deploymentLyle).
  split; vm_compute; reflexivity.
Defined.

Lemma syncResources_delete_absent_witness :
  syncResources Samples.Synced.readingEnv (mkDelete "tonina" "black-angel")
    [Samples.App.secretTonina] delete Samples.Synced.syncedWorld = (Ok tt, Samples.Synced.syncedWorld).
Proof.
  apply syncResources_delete_absent; [reflexivity|].
  constructor; [|constructor]. vm_compute. reflexivity.
Defined.

End WorkingCopyFacts.

(** ** kubernetes/clients.ts: a patch that returns *)

Module PatchFacts.
Import Clients.

Section Patch.

Context {O R Val : Type}.

(** The patch runs on the client with the patch content type put over
    the content type it had and all its other headers kept; the call
    ends as the patch ends, and when the patch returns the client has
    its headers of before the call. *)
Theorem patchWithHeaders_swaps_content_type
    (patcher : list Val -> Async (Api O) R) (args : list Val) (api : Api O) :
  let during :=
    mkApi (<["Content-Type" := patchContentType]> (defaultHeaders api))
      (others api) in
  defaultHeaders during !! "Content-Type" = Some patchContentType /\
  (forall k, k <> "Content-Type" ->
             defaultHeaders during !! k = defaultHeaders api !! k) /\
  (patchWithHeaders patcher args api).1 = (patcher args during).1 /\
  (forall rv api',
     patcher args during = (Ok rv, api') ->
     patchWithHeaders patcher args api =
       (Ok rv, mkApi (defaultHeaders api) (others api'))).
Proof.
  intros during. split; [apply lookup_insert_eq|]. split.
  { intros k Hk. simpl. by rewrite lookup_insert_ne. }
  unfold patchWithHeaders, bind, get, modify, ret, setDefaultHeaders. simpl.
  fold patchContentType. fold during.
  split.
  - by destruct (patcher args during) as [[rv|e|[]] api'].
  - intros rv api' H. by rewrite H.
Qed.

End Patch.

End PatchFacts.

(** ** The salt and the failures of encrypt and decrypt *)

Module SaltFacts.
Import Secret JsFacts.

Lemma length_repeat (s : JsString) (n : nat) :
  List.length (Secret.repeat s n) = n * List.length s.
Proof.
  induction n as [|n IH]; simpl; [done|]. by rewrite length_app, IH.
Qed.

(** The salt of a non-empty key has sixteen characters; it is the start
    of the key written several times over, and the first sixteen
    characters of the key when the key has that many. *)
Theorem saltOf_sixteen (key : JsString) :
  key <> [] ->
  List.length (saltOf key) = 16 /\
  saltOf key `prefix_of` Secret.repeat key (16 / List.length key + 1) /\
  (16 <= List.length key -> saltOf key = substring0 16 key).
Proof.
  intros Hk. unfold saltOf, substring0.
  assert (Hl : 0 < List.length key) by (destruct key; simpl; [done|lia]).
  split; [|split].
  - rewrite length_take, length_repeat.
    pose proof (Nat.div_mod_eq 16 (List.length key)) as Hd.
    pose proof (Nat.mod_upper_bound 16 (List.length key)) as Hm.
    nia.
  - apply prefix_take.
  - intros Hlong.
    destruct (Nat.eq_dec (List.length key) 16) as [E|E].
    + rewrite E. rewrite Nat.div_same by lia. simpl Secret.repeat.
      apply take_app_le. lia.
    + rewrite Nat.div_small by lia. simpl Secret.repeat.
      apply take_app_le. lia.
Qed.

Lemma saltOf_sixteen_witness :
  List.length (saltOf (units "abc")) = 16 /\
  saltOf (units "abc") `prefix_of` Secret.repeat (units "abc") (16 / 3 + 1) /\
  (16 <= 3 -> saltOf (units "abc") = substring0 16 (units "abc")).
Proof. apply (saltOf_sixteen (units "abc")). discriminate. Defined.

Section WithCrypto.

Variable lib : NodeCrypto.
Hypothesis laws : NodeCryptoLaws lib.

(** [encrypt] throws exactly for the empty key, and [decrypt] throws
    for the empty key whatever the text. *)
Theorem encrypt_throws_iff_empty_key (text ciphertext key : JsString) :
  ((exists e, encrypt lib text key = Err e) <-> key = []) /\
  decrypt lib ciphertext [] =
    Err (RangeError "Invalid count value: Infinity").
Proof.
  split; [|done]. split.
  - intros [e He]. destruct key as [|c key]; [done|]. exfalso.
    rewrite (SecretFacts.encrypt_eq lib laws text _) in He by done.
    destruct (cipher_inverse lib laws (derivedKeyOf lib (c :: key))
                (ivOf lib (c :: key)) (utf8Bytes lib text))
      as (ct & Hc & _); try apply (scrypt_length lib laws).
    by rewrite Hc in He.
  - intros ->. by eexists.
Qed.

End WithCrypto.

Lemma encrypt_throws_iff_empty_key_witness :
  (exists e,
     encrypt Samples.Crypto.sampleCrypto (units "Calypso Blues") [] = Err e)
  <-> @nil N = [].
Proof.
  apply (encrypt_throws_iff_empty_key Samples.Crypto.sampleCrypto
           SecretFacts.sampleCrypto_laws (units "Calypso Blues")
           (units "Q2FseXBzbyBCbHVlcw==") []).
Defined.

End SaltFacts.

(** ** sync/goals.ts: pushes that are not selected *)

Module PushTestFacts.
Import Goals.

Section WithTag.

Variable commitTag : Configuration -> string.
Variable stringify : option SyncRepo -> string.

(** A push whose commits all carry the commit tag in their message, a
    push without commits included, is never selected, whatever its
    repository. *)
Theorem isSyncRepoCommitTest_generated_only
    (sdm : Configuration) (p : PushListenerInvocation) :
  Forall (fun c => includes (message c) (commitTag sdm) = true) (commits p) ->
  isSyncRepoCommitTest commitTag stringify sdm p <> Ok true.
Proof.
  intros Hall. unfold isSyncRepoCommitTest.
  destruct (isRemoteRepo (configuredRepo sdm)) as [rr|]; [|done].
  destruct (_ && _); [|done].
  intros [= H]. apply existsb_exists in H as (c & Hc & Hm).
  rewrite List.Forall_forall in Hall. apply Hall in Hc.
  by rewrite Hc in Hm.
Qed.

(** There is a push test exactly when a sync repo is configured. *)
Theorem isSyncRepoCommit_defined (sdm : Configuration) :
  isSyncRepoCommit commitTag stringify sdm = None <->
  (sync sdm = None \/
   exists opts, sync sdm = Some opts /\ sync_repo_ref opts = None).
Proof.
  unfold isSyncRepoCommit, configuredRepo.
  destruct (sync sdm) as [opts|]; [|by split; [left|]].
  destruct (sync_repo_ref opts) eqn:E; split; try done.
  - intros [|(o & [= <-] & H)]; [done|congruence].
  - intros _. right. by exists opts.
Qed.

End WithTag.

Lemma isSyncRepoCommitTest_generated_only_witness :
  isSyncRepoCommitTest Samples.Push.sampleTag (fun _ => "")
    Samples.Push.sampleSdm
    (mkPush Samples.Push.sampleRepo
       [mkCommit "Update specs [atomist:sync-commit=@atomist/sdm-pack-k8s]"])
  <> Ok true.
Proof.
  apply isSyncRepoCommitTest_generated_only.
  constructor; [|constructor]. vm_compute. reflexivity.
Defined.

End PushTestFacts.

(** ** sync/goals.ts: the goal executor *)

Module K8sSyncFacts.
Import Diff GoalSync.

Section WithOutside.

Context {Outside : Type}.
Variable imp : @GoalSync.Imports Outside.

Lemma changeEach_attempts_all (changes : list PushDiff) (errs : list JsError)
    (o : Outside) (lines : list string) :
  changeEach imp changes errs (mkRun o lines) =
    (Ok (errs ++ flat_map (failureOf imp) (attemptAll imp changes o).1),
     mkRun (attemptAll imp changes o).2
       (lines ++ flat_map (linesOf imp) (attemptAll imp changes o).1)).
Proof.
  revert errs o lines.
  induction changes as [|c rest IH]; intros errs o lines.
  - simpl. by rewrite !app_nil_r.
  - simpl. unfold bind, write, modify, try_catch, onOutside, ret.
    simpl outside. simpl progress.
    unfold failureOf at 1, linesOf at 1, failureOf at 1. simpl.
    destruct (changeResource imp c o) as [[[]|e|[]] o1]; simpl.
    + rewrite IH. by rewrite <- !app_assoc.
    + rewrite IH. by rewrite <- !app_assoc.
Qed.

Lemma attemptAll_length (changes : list PushDiff) (o : Outside) :
  List.length (attemptAll imp changes o).1 = List.length changes /\
  List.map fst (attemptAll imp changes o).1 = changes.
Proof.
  revert o. induction changes as [|c rest IH]; intros o; [done|].
  simpl. destruct (IH (changeResource imp c o).2) as [-> ->]. done.
Qed.

Lemma failures_count (outs : list (PushDiff * result unit)) :
  List.length (flat_map (failureOf imp) outs) =
    List.length (List.filter threw outs).
Proof.
  induction outs as [|[c [[]|e|[]]] outs IH]; simpl; [done|done|].
  by rewrite IH.
Qed.

(** The goal executor never throws because of a change.  Once the
    changes of the push are known, every change is handled, in order
    and whatever became of the ones before; the code of the result is
    the number of changes that threw and the message joins their
    messages, or the code is 0 and the message tells the number of
    changes.  Each change writes a line to the progress log, and a
    second one with its error when it threw.  A refused [git fetch],
    tried for a clone of depth above 1 only, is passed over. *)
Theorem K8sSync_counts_failures
    (depth : nat) (r : Run Outside) (changes : list PushDiff) (o1 : Outside) :
  let o0 := if (1 <? depth)%nat then (gitFetch imp depth (outside r)).2
            else outside r in
  diffPush imp o0 = (Ok changes, o1) ->
  let outs := (attemptAll imp changes o1).1 in
  let failed := flat_map (failureOf imp) outs in
  List.map fst outs = changes /\
  List.length failed = List.length (List.filter threw outs) /\
  K8sSync imp depth r =
    match failed with
    | [] =>
        (Ok (mkResult 0
               ("Changed " +:+ pretty (List.length changes) +:+ " resources")),
         mkRun (attemptAll imp changes o1).2
           (progress r ++ flat_map (linesOf imp) outs ++
            ["Changed " +:+ pretty (List.length changes) +:+ " resources"]))
    | _ :: _ =>
        (Ok (mkResult (List.length failed)
               (join "; " (List.map Js.message failed))),
         mkRun (attemptAll imp changes o1).2
           (progress r ++ flat_map (linesOf imp) outs))
    end.
Proof.
  intros o0 Hd outs failed.
  split; [apply attemptAll_length|]. split; [apply failures_count|].
  unfold K8sSync. unfold bind at 1.
  assert (Hf : (if (1 <? depth)%nat
                then try_catch (onOutside (gitFetch imp depth))
                       (fun _ => ret tt)
                else ret tt) r = (Ok tt, mkRun o0 (progress r))).
  { subst o0. destruct (1 <? depth)%nat.
    - unfold try_catch, onOutside, ret.
      by destruct (gitFetch imp depth (outside r)) as [[[]|e|[]] o].
    - by destruct r. }
  rewrite Hf. unfold bind at 1. unfold onOutside at 1. simpl outside.
  rewrite Hd. simpl progress. unfold bind at 1.
  rewrite changeEach_attempts_all. simpl app at 1.
  fold outs. fold failed.
  destruct failed as [|e es] eqn:E; simpl.
  - unfold bind, write, modify, ret. simpl. by rewrite <- app_assoc.
  - done.
Qed.

End WithOutside.

Lemma K8sSync_counts_failures_witness :
  K8sSync Samples.Pushes.changing 2 (mkRun [] []) =
    (Ok (mkResult 1
           ("Failed to delete 'b.yml' resource for commit " +:+
            Samples.Changes.testSha +:+ ": Not Found")),
     mkRun ["fetch"; "diff"; "a.yaml"; "b.yml"; "aa.json"]
       ["Deleting 'a.yaml' from commit " +:+ Samples.Changes.testSha;
        "Deleting 'b.yml' from commit " +:+ Samples.Changes.testSha;
        "Failed to delete 'b.yml' resource for commit " +:+
        Samples.Changes.testSha +:+ ": Not Found";
        "Applying 'aa.json' from commit " +:+ Samples.Changes.testSha]).
Proof.
  destruct (K8sSync_counts_failures Samples.Pushes.changing 2 (mkRun [] [])
              [mkPushDiff Samples.Changes.testSha delete "a.yaml";
               mkPushDiff Samples.Changes.testSha delete "b.yml";
               mkPushDiff Samples.Changes.testSha apply "aa.json"]
              ["fetch"; "diff"] eq_refl) as (_ & _ & H).
  etransitivity; [exact H|]. vm_compute. reflexivity.
Defined.

End K8sSyncFacts.

(** ** sync/sync.ts *)

Module RepoSyncFacts.
Import RepoSync.

Section WithCluster.

Context {World : Type}.
Variable imp : @RepoSync.Imports World.

Lemma streamFiles_In (files : gmap string string) (p c : string) :
  In (mkFile p c) (streamFiles files) <->
  files !! p = Some c /\ Application.k8sSpecGlob p = true.
Proof.
  unfold streamFiles. rewrite in_map_iff. split.
  - intros ([p' c'] & [= -> ->] & H). apply filter_In in H as [H Hg].
    apply list_elem_of_In, elem_of_map_to_list in H. done.
  - intros [H Hg]. exists (p, c). split; [done|]. apply filter_In.
    split; [|done]. by apply list_elem_of_In, elem_of_map_to_list.
Qed.

Lemma fmap_is_map {A B} (f : A -> B) (l : list A) : f <$> l = List.map f l.
Proof. induction l as [|x l IH]; simpl; [done|by rewrite <- IH]. Qed.

Lemma streamFiles_NoDup (files : gmap string string) :
  List.NoDup (List.map path (streamFiles files)).
Proof.
  unfold streamFiles. rewrite List.map_map. simpl.
  assert (H : List.NoDup (List.map fst (map_to_list files))).
  { rewrite <- fmap_is_map. apply NoDup_ListNoDup, NoDup_fst_map_to_list. }
  induction (map_to_list files) as [|[p c] l IH]; simpl; [constructor|].
  apply List.NoDup_cons_iff in H as [Hp Hl]. simpl in Hp.
  destruct (Application.k8sSpecGlob p) eqn:Eg; simpl; [|by apply IH].
  constructor; [|by apply IH].
  intros Hin. apply Hp.
  apply in_map_iff in Hin as ([p' c'] & Heq & Hin). simpl in Heq. subst p'.
  apply filter_In in Hin as [Hin _]. apply in_map_iff. by exists (p, c').
Qed.

(** Unless the file stream fails, [sortSpecs] gives every spec file of
    the project, each once, in ascending order of path; it gives no
    other file.  When the stream fails it throws that error. *)
Theorem sortSpecs_sorted (files : gmap string string) :
  (forall a b, pathLeb imp a b = true \/ pathLeb imp b a = true) ->
  (forall a b c, pathLeb imp a b = true -> pathLeb imp b c = true ->
                 pathLeb imp a c = true) ->
  match streamError imp with
  | Some e => sortSpecs imp files = Err e
  | None =>
      exists specs,
        sortSpecs imp files = Ok specs /\
        StronglySorted (byPath imp) specs /\
        List.NoDup (List.map path specs) /\
        forall p c,
          In (mkFile p c) specs <->
          files !! p = Some c /\ Application.k8sSpecGlob p = true
  end.
Proof.
  intros Htotal Htrans. unfold sortSpecs.
  destruct (streamError imp); [done|].
  eexists. split; [reflexivity|].
  assert (Total (byPath imp)) by (intros a b; apply Htotal).
  assert (Transitive (byPath imp)) by (intros a b c; apply Htrans).
  split; [by apply StronglySorted_merge_sort|]. split.
  - eapply Permutation.Permutation_NoDup; [|apply streamFiles_NoDup].
    apply Permutation.Permutation_map. symmetry. apply merge_sort_Permutation.
  - intros p c. rewrite <- streamFiles_In.
    rewrite <- !list_elem_of_In. by rewrite merge_sort_Permutation.
Qed.

Lemma applyEach_attempts_all opts (specFiles : list ProjectFile)
    (errors : list JsError) (s : World) :
  applyEach imp opts specFiles errors s =
    (Ok (errors ++ flat_map (failedFile imp) (applyAll imp opts specFiles s).1),
     (applyAll imp opts specFiles s).2).
Proof.
  revert errors s. induction specFiles as [|f rest IH]; intros errors s.
  - simpl. by rewrite app_nil_r.
  - simpl. unfold bind at 1. unfold try_catch, bind at 1, ret.
    unfold failedFile at 1. simpl.
    destruct (applyFile imp opts f s) as [[[]|e|[]] s1]; simpl.
    + by rewrite IH.
    + rewrite IH. by rewrite <- app_assoc.
Qed.

(** [syncApply] handles every spec file, in sorted order and whatever
    became of the ones before.  It returns when none failed; otherwise
    it throws the error of the first file that failed, with a message
    that joins the messages of all the failures. *)
Theorem syncApply_collects_errors
    opts (files : gmap string string) (specFiles : list ProjectFile)
    (s : World) :
  sortSpecs imp files = Ok specFiles ->
  let outs := (applyAll imp opts specFiles s).1 in
  let failed := flat_map (failedFile imp) outs in
  List.map fst outs = specFiles /\
  syncApply imp opts files s =
    (match failed with
     | [] => Ok tt
     | e0 :: _ =>
         Err (setMessage e0
                ("There were errors during repo sync: " +:+
                 join "; " (List.map Js.message failed)))
     end, (applyAll imp opts specFiles s).2).
Proof.
  intros Hs outs failed. split.
  { subst failed outs. clear Hs. revert s.
    induction specFiles as [|f rest IH]; intros s; [done|].
    simpl. by rewrite IH. }
  unfold syncApply, bind, lift. rewrite Hs.
  rewrite applyEach_attempts_all. simpl app. fold outs. fold failed.
  by destruct failed.
Qed.

(** Without a truthy secret key in the options, [decryptSecret] plays
    no part in [syncApply]. *)
Theorem syncApply_without_key_never_decrypts opts d files (s : World) :
  match opts with
  | Some o => truthy (Application.secretKey o) = false
  | None => True
  end ->
  syncApply (withDecrypt d imp) opts files s = syncApply imp opts files s.
Proof.
  intros Hk.
  assert (Hfile : forall f s0, applyFile (withDecrypt d imp) opts f s0 =
                               applyFile imp opts f s0).
  { intros f s0. unfold applyFile, bind, lift. simpl.
    destruct (parseKubernetesSpecFile imp f) as [spec|e|[]]; [|done].
    destruct opts as [o|]; [|done]. rewrite Hk. by rewrite andb_false_r. }
  assert (Heach : forall l errors s0,
             applyEach (withDecrypt d imp) opts l errors s0 =
             applyEach imp opts l errors s0).
  { induction l as [|f rest IH]; intros errors s0; [done|].
    simpl. unfold bind, try_catch, ret. rewrite Hfile.
    destruct (applyFile imp opts f s0) as [[[]|e|[]] s1]; simpl; apply IH. }
  unfold syncApply, bind. unfold sortSpecs, lift. simpl.
  destruct (streamError imp); [done|].
  change (merge_sort (byPath (withDecrypt d imp)))
    with (merge_sort (byPath imp)).
  by rewrite Heach.
Qed.

(** A spec that is no Secret is never decrypted either. *)
Theorem applyFile_decrypts_secrets_only opts d (f : ProjectFile) spec (s : World) :
  parseKubernetesSpecFile imp f = Ok spec ->
  Application.kind spec <> Some "Secret" ->
  applyFile (withDecrypt d imp) opts f s = applySpec imp spec s /\
  applyFile imp opts f s = applySpec imp spec s.
Proof.
  intros Hp Hk. unfold applyFile, bind, lift. simpl. rewrite Hp.
  destruct opts as [o|]; [|done].
  by rewrite bool_decide_eq_false_2.
Qed.

Lemma initialEach_stops
    (before after : list ProjectFile) (f : ProjectFile) (s s1 s2 : World) e :
  initialEach imp before s = (Ok tt, s1) ->
  applyPlain imp f s1 = (Err e, s2) ->
  initialEach imp (before ++ f :: after) s =
    (Err (setMessage e
            ("Failed to apply '" +:+ path f +:+ "': " +:+ Js.message e)), s2).
Proof.
  revert s. induction before as [|b before IH]; intros s Hb Hf.
  - injection Hb as <-. simpl. unfold bind at 1. unfold try_catch.
    unfold applyPlain in Hf. by rewrite Hf.
  - simpl in *. unfold bind at 1 in Hb. unfold bind at 1.
    destruct (try_catch _ _ s) as [[[]|e'|[]] s'] eqn:E; [|done].
    by apply IH.
Qed.

(** [initialSync] stops at the first spec file, in sorted order, that
    fails: it throws the error of that file with its path in the
    message, and the files after it are neither parsed nor applied. *)
Theorem initialSync_stops_at_first_failure
    (files : gmap string string) (before after : list ProjectFile)
    (f : ProjectFile) (s s1 s2 : World) e :
  sortSpecs imp files = Ok (before ++ f :: after) ->
  initialEach imp before s = (Ok tt, s1) ->
  applyPlain imp f s1 = (Err e, s2) ->
  initialSync imp files s =
    (Err (setMessage e
            ("Failed to apply '" +:+ path f +:+ "': " +:+ Js.message e)), s2).
Proof.
  intros Hsort Hb Hf. unfold initialSync, bind, lift. rewrite Hsort.
  by apply initialEach_stops with s1.
Qed.

Variable loader : @RepoSync.Loader World.

(** With a sync repo configured, [repoSync] never throws: whatever
    cloning, applying and disposing do, it returns, and the disposers
    have run after the project was done with. *)
Theorem repoSync_never_throws opts owner rname (s : World) :
  Application.repo opts = Some (owner, rname) ->
  repoSync imp loader (Some opts) s =
    (Ok tt,
     (dispose loader
        (doWithProject loader (syncApply imp (Some opts)) s).2).2).
Proof.
  intros Hr. unfold repoSync, finally, try_catch. rewrite Hr.
  destruct (doWithProject loader _ s) as [[[]|e|[]] s1]; simpl;
    by destruct (dispose loader s1) as [[[]|e'|[]] s2].
Qed.

End WithCluster.

Lemma sortSpecs_sorted_witness :
  exists specs,
    sortSpecs Samples.Specs.applying Samples.Specs.repoFiles = Ok specs /\
    StronglySorted (byPath Samples.Specs.applying) specs /\
    List.NoDup (List.map path specs) /\
    forall p c,
      In (mkFile p c) specs <->
      Samples.Specs.repoFiles !! p = Some c /\
      Application.k8sSpecGlob p = true.
Proof.
  exact (sortSpecs_sorted Samples.Specs.applying Samples.Specs.repoFiles
           DiffFacts.codeUnitLeb_total DiffFacts.codeUnitLeb_trans).
Defined.

Lemma syncApply_collects_errors_witness :
  syncApply Samples.Specs.applying None Samples.Specs.repoFiles [] =
    (Err (Error
            ("There were errors during repo sync: " +:+
             "Failed to apply 'b.json': Forbidden; " +:+
             "Failed to apply 'c.yml': Unexpected end of JSON input")),
     ["a.yaml"; "b.json"; "d.json"]).
Proof.
  destruct (syncApply_collects_errors Samples.Specs.applying None
              Samples.Specs.repoFiles
              [mkFile "a.yaml" "Deployment"; mkFile "b.json" "Bad";
               mkFile "c.yml" ""; mkFile "d.json" "Secret"] [])
    as [_ H]; [vm_compute; reflexivity|].
  etransitivity; [exact H|]. vm_compute. reflexivity.
Defined.

Lemma syncApply_without_key_never_decrypts_witness :
  syncApply (withDecrypt Samples.Specs.noDecrypt Samples.Specs.applying)
    (Some (Application.mkSyncOptions (Some ("atomist", "specs")) "token"
             (Some "")))
    Samples.Specs.repoFiles [] =
  syncApply Samples.Specs.applying
    (Some (Application.mkSyncOptions (Some ("atomist", "specs")) "token"
             (Some "")))
    Samples.Specs.repoFiles [].
Proof.
  apply (syncApply_without_key_never_decrypts Samples.Specs.applying
           (Some (Application.mkSyncOptions (Some ("atomist", "specs"))
                    "token" (Some "")))).
  reflexivity.
Defined.

Lemma applyFile_decrypts_secrets_only_witness :
  applyFile (withDecrypt Samples.Specs.noDecrypt Samples.Specs.applying)
    (Some (Application.mkSyncOptions (Some ("atomist", "specs")) "token"
             (Some "k3y")))
    (mkFile "a.yaml" "Deployment") [] = (Ok tt, ["a.yaml"]).
Proof.
  destruct (applyFile_decrypts_secrets_only Samples.Specs.applying
              (Some (Application.mkSyncOptions (Some ("atomist", "specs"))
                       "token" (Some "k3y")))
              Samples.Specs.noDecrypt (mkFile "a.yaml" "Deployment")
              (Samples.Specs.specOf (mkFile "a.yaml" "Deployment")) []
              eq_refl) as [H _]; [discriminate|].
  etransitivity; [exact H|]. reflexivity.
Defined.

Lemma initialSync_stops_at_first_failure_witness :
  initialSync Samples.Specs.applying Samples.Specs.repoFiles [] =
  (Err (Error "Failed to apply 'b.json': Forbidden"), ["a.yaml"; "b.json"]).
Proof.
  apply (initialSync_stops_at_first_failure Samples.Specs.applying
           Samples.Specs.repoFiles
           [mkFile "a.yaml" "Deployment"]
           [mkFile "c.yml" ""; mkFile "d.json" "Secret"]
           (mkFile "b.json" "Bad") [] ["a.yaml"] ["a.yaml"; "b.json"]
           (Error "Forbidden"));
    [vm_compute; reflexivity|reflexivity|reflexivity].
Defined.

Lemma repoSync_never_throws_witness :
  repoSync Samples.Specs.applying Samples.Specs.cloning
    (Some (Application.mkSyncOptions (Some ("atomist", "specs")) "token"
             None)) [] =
  (Ok tt, ["a.yaml"; "b.json"; "d.json"; "disposed"]).
Proof.
  etransitivity;
    [exact (repoSync_never_throws Samples.Specs.applying Samples.Specs.cloning
              (Application.mkSyncOptions (Some ("atomist", "specs")) "token"
                 None) "atomist" "specs" [] eq_refl)|].
  vm_compute. reflexivity.
Defined.

End RepoSyncFacts.

(** ** kubernetes/application.ts: upsertApplication *)

Module UpsertFacts.
Import KubeApp.

Section WithCluster.

Context {Cluster Obj KubeConfig Clients : Type}.
Variable imp : @KubeApp.Imports Cluster Obj KubeConfig Clients.

Lemma upsertApplication_inOrder
    (a : KubernetesDelete) (fulfiller : string) (s : Cluster) config :
  loadKubeConfig imp = Ok config ->
  let req := mkResourceRequest a fulfiller (makeApiClients imp config) in
  upsertApplication imp a fulfiller s =
    match inOrder (upsertSteps imp req) s with
    | (Ok l, s') => (Ok (defined l), s')
    | (Err e, s') =>
        (Err (setMessage e
                ("Failed to upsert '" +:+ reqString imp (inr req) +:+ "': " +:+
                 Js.message e)), s')
    | (Unfinished x, s') => (Unfinished x, s')
    end.
Proof.
  intros H req. unfold upsertApplication. unfold bind at 1.
  unfold try_catch at 1. unfold lift. rewrite H. fold req.
  unfold upsertSteps, inOrder, bodyOf, try_catch, bind, ret, throw.
  destruct (upsertNamespace imp req s) as [[[r1|]|e|[]] s1]; [|done..].
  destruct (upsertRbac imp req s1) as [[r2|e|[]] s2]; [|done].
  destruct (upsertService imp req s2) as [[[r3|]|e|[]] s3]; [|done..].
  destruct (upsertSecrets imp req s3) as [[r4|e|[]] s4]; [|done].
  destruct (upsertDeployment imp req s4) as [[[r5|]|e|[]] s5]; [|done..].
  destruct (upsertIngress imp req s5) as [[[r6|]|e|[]] s6]; [|done..].
  simpl. by rewrite ?app_nil_r, <- ?app_assoc.
Qed.

Lemma inOrder_app (steps1 steps2 : list (Async Cluster (list (option Obj))))
    (s : Cluster) :
  inOrder (steps1 ++ steps2) s =
    match inOrder steps1 s with
    | (Ok l1, s1) =>
        match inOrder steps2 s1 with
        | (Ok l2, s2) => (Ok (l1 ++ l2), s2)
        | (Err e, s2) => (Err e, s2)
        | (Unfinished x, s2) => (Unfinished x, s2)
        end
    | (Err e, s1) => (Err e, s1)
    | (Unfinished x, s1) => (Unfinished x, s1)
    end.
Proof.
  revert s. induction steps1 as [|m steps1 IH]; intros s; simpl.
  - unfold ret. by destruct (inOrder steps2 s) as [[l|e|[]] s2].
  - unfold bind. destruct (m s) as [[a|e|[]] s0]; [|done].
    rewrite IH.
    destruct (inOrder steps1 s0) as [[l1|e|[]] s1]; [|done].
    unfold ret.
    destruct (inOrder steps2 s1) as [[l2|e|[]] s2]; [|done].
    by rewrite app_assoc.
Qed.

(** [upsertApplication] upserts namespace, RBAC, service, secrets,
    deployment and ingress in this order and stops at the first upsert
    that throws: it rethrows that error with the request in the
    message, and the upserts after it are not made. *)
Theorem upsertApplication_stops_at_first_failure
    (a : KubernetesDelete) (fulfiller : string) (s s1 s2 : Cluster) config
    (done todo : list (Async Cluster (list (option Obj))))
    (m : Async Cluster (list (option Obj))) l e :
  loadKubeConfig imp = Ok config ->
  let req := mkResourceRequest a fulfiller (makeApiClients imp config) in
  upsertSteps imp req = done ++ m :: todo ->
  inOrder done s = (Ok l, s1) ->
  m s1 = (Err e, s2) ->
  upsertApplication imp a fulfiller s =
    (Err (setMessage e
            ("Failed to upsert '" +:+ reqString imp (inr req) +:+ "': " +:+
             Js.message e)), s2).
Proof.
  intros H req Hsteps Hdone Hm.
  rewrite (upsertApplication_inOrder a fulfiller s config H). fold req.
  rewrite Hsteps, inOrder_app, Hdone. simpl. unfold bind at 1.
  by rewrite Hm.
Qed.

(** When the six upserts return and none of the results of namespace,
    service, deployment and ingress is undefined, [upsertApplication]
    returns the bodies they gave, in the order namespace, RBAC,
    service, secrets, deployment, ingress, without the undefined
    ones. *)
Theorem upsertApplication_returns_bodies
    (a : KubernetesDelete) (fulfiller : string) (s : Cluster) config
    r1 s1 r2 s2 r3 s3 r4 s4 r5 s5 r6 s6 :
  loadKubeConfig imp = Ok config ->
  let req := mkResourceRequest a fulfiller (makeApiClients imp config) in
  upsertNamespace imp req s = (Ok (Some r1), s1) ->
  upsertRbac imp req s1 = (Ok r2, s2) ->
  upsertService imp req s2 = (Ok (Some r3), s3) ->
  upsertSecrets imp req s3 = (Ok r4, s4) ->
  upsertDeployment imp req s4 = (Ok (Some r5), s5) ->
  upsertIngress imp req s5 = (Ok (Some r6), s6) ->
  upsertApplication imp a fulfiller s =
    (Ok (defined ([body r1] ++ List.map body (omap (fun x => x) r2) ++
                  [body r3] ++ List.map body r4 ++ [body r5] ++ [body r6])),
     s6).
Proof.
  intros H req H1 H2 H3 H4 H5 H6.
  rewrite (upsertApplication_inOrder a fulfiller s config H). fold req.
  unfold upsertSteps, inOrder, bodyOf, bind, ret.
  rewrite H1, H2, H3, H4, H5, H6. simpl. by rewrite ?app_nil_r.
Qed.

(** An upsert of namespace, service, deployment or ingress that
    returns undefined makes [upsertApplication] throw, as reading its
    [body] does; the upserts after it are not made. *)
Lemma upsertApplication_undefined_result
    (a : KubernetesDelete) (fulfiller : string) (s s1 s2 : Cluster) config
    (done todo : list (Async Cluster (list (option Obj))))
    (upsert : Async Cluster (option Response)) l :
  loadKubeConfig imp = Ok config ->
  let req := mkResourceRequest a fulfiller (makeApiClients imp config) in
  upsertSteps imp req =
    done ++ (do r <- upsert; do b <- bodyOf r; ret [b]) :: todo ->
  inOrder done s = (Ok l, s1) ->
  upsert s1 = (Ok None, s2) ->
  upsertApplication imp a fulfiller s =
    (Err (TypeError
            ("Failed to upsert '" +:+ reqString imp (inr req) +:+ "': " +:+
             "Cannot read property 'body' of undefined")), s2).
Proof.
  intros H req Hsteps Hdone Hm.
  rewrite (upsertApplication_inOrder a fulfiller s config H). fold req.
  rewrite Hsteps, inOrder_app, Hdone. simpl. unfold bind at 1.
  unfold bind at 1. by rewrite Hm.
Qed.

End WithCluster.

Lemma upsertApplication_stops_at_first_failure_witness :
  upsertApplication
    (Samples.Cluster.recordingImports (Ok tt) ["service"])
    Samples.Cluster.tonina "@atomist/k8s-sdm" [] =
  (Err (Error "Failed to upsert '{}': Forbidden"),
   ["namespace"; "rbac"; "service"]).
Proof.
  pose (imp := Samples.Cluster.recordingImports (Ok tt) ["service"]).
  pose (req := mkResourceRequest Samples.Cluster.tonina "@atomist/k8s-sdm"
                 (makeApiClients imp tt)).
  apply (upsertApplication_stops_at_first_failure imp
           Samples.Cluster.tonina "@atomist/k8s-sdm" []
           ["namespace"; "rbac"] ["namespace"; "rbac"; "service"] tt
           (firstn 2 (upsertSteps imp req)) (skipn 3 (upsertSteps imp req))
           (do r <- upsertService imp req; do b <- bodyOf r; ret [b])
           [Some "ns"] (Error "Forbidden") eq_refl);
    reflexivity.
Defined.

Lemma upsertApplication_returns_bodies_witness :
  upsertApplication (Samples.Cluster.recordingImports (Ok tt) [])
    Samples.Cluster.tonina "@atomist/k8s-sdm" [] =
  (Ok ["ns"; "deployment/tonina"],
   ["namespace"; "rbac"; "service"; "secrets"; "deployment"; "ingress"]).
Proof.
  apply (upsertApplication_returns_bodies
           (Samples.Cluster.recordingImports (Ok tt) [])
           Samples.Cluster.tonina "@atomist/k8s-sdm" [] tt
           (mkResponse (Some "ns")) ["namespace"]
           [] ["namespace"; "rbac"]
           (mkResponse None) ["namespace"; "rbac"; "service"]
           [] ["namespace"; "rbac"; "service"; "secrets"]
           (mkResponse (Some "deployment/tonina"))
           ["namespace"; "rbac"; "service"; "secrets"; "deployment"]
           (mkResponse None)
           ["namespace"; "rbac"; "service"; "secrets"; "deployment"; "ingress"]
           eq_refl); reflexivity.
Defined.

(** The ingress upsert returns undefined, as ingress.ts does without
    a port: reading [body] throws after all six upserts were made. *)
Example upsertApplication_undefined_ingress :
  upsertApplication (Samples.Cluster.recordingUpserts (Ok tt) [] None)
    Samples.Cluster.tonina "@atomist/k8s-sdm" [] =
  (Err (TypeError
          "Failed to upsert '{}': Cannot read property 'body' of undefined"),
   ["namespace"; "rbac"; "service"; "secrets"; "deployment"; "ingress"]).
Proof. reflexivity. Qed.

End UpsertFacts.

(** ** kubernetes/ingress.ts *)

Module IngressFacts.
Import Ingress.

Section WithCluster.

Context {Cluster Patch Labels Meta : Type}.
Variable imp : @Ingress.Imports Cluster Patch Labels Meta.

(** Without a port (undefined or zero) or without a path (undefined or
    empty) [upsertIngress] returns undefined and makes no call to the
    cluster: it neither reads, creates nor patches an ingress. *)
Theorem upsertIngress_needs_port_and_path
    (req : KubernetesApplication Patch) (s : Cluster) :
  noPort (port req) = true \/ truthy (path req) = false ->
  upsertIngress imp req s = (Ok None, s).
Proof.
  intros [H|H]; unfold upsertIngress; rewrite H; [done|].
  by destruct (noPort (port req)).
Qed.

(** What [upsertIngress] returns, when it returns, is the spec built by
    [ingressTemplate] from the request, and undefined exactly when the
    port or the path is missing; the ingress read from the cluster is
    never what is returned. *)
Theorem upsertIngress_returns_template
    (req : KubernetesApplication Patch) (s s' : Cluster) r :
  upsertIngress imp req s = (Ok r, s') ->
  r = if noPort (port req) || negb (truthy (path req)) then None
      else Some (ingressTemplate imp req).
Proof.
  unfold upsertIngress.
  destruct (noPort (port req)); simpl; [by intros [= <- _]|].
  destruct (truthy (path req)); simpl; [|by intros [= <- _]].
  destruct (readNamespacedIngress imp (name req) (ns req) s) as [[i|e|[]] s1];
    unfold bind, ret;
    match goal with
    | |- context [logRetry imp ?m ?d s1] =>
        destruct (logRetry imp m d s1) as [[[]|e'|[]] s2]
    end; by intros [= <- _].
Qed.

(** [deleteIngress] returns the ingress that it read from the cluster
    before deleting it; it returns undefined only when the read threw,
    and then no delete was requested. *)
Theorem deleteIngress_returns_what_was_read
    (req : KubernetesApplication Patch) (s s' : Cluster) r :
  deleteIngress imp req s = (Ok r, s') ->
  match r with
  | Some ing =>
      exists s1,
        readNamespacedIngress imp (name req) (ns req) s = (Ok ing, s1) /\
        logRetry imp (deleteNamespacedIngress imp (name req) (ns req))
          ("delete ingress " +:+ appName imp req) s1 = (Ok tt, s')
  | None =>
      exists e,
        readNamespacedIngress imp (name req) (ns req) s = (Err e, s')
  end.
Proof.
  unfold deleteIngress.
  destruct (readNamespacedIngress imp (name req) (ns req) s) as [[i|e|[]] s1].
  - unfold bind, ret.
    destruct (logRetry imp (deleteNamespacedIngress imp (name req) (ns req))
                ("delete ingress " +:+ appName imp req) s1)
      as [[[]|e'|[]] s2] eqn:E; [|done].
    intros [= <- <-]. by exists s1.
  - intros [= <- <-]. by exists e.
Qed.

(** Unless an [ingressSpec] is merged in, the ingress of the template
    has one rule with one path, to the service of the application's
    name on port "http", and every TLS entry lists the host of that
    rule, or no host when the rule has none. *)
Theorem ingressTemplate_one_rule (req : KubernetesApplication Patch) :
  ingressSpec req = None ->
  exists rule,
    rules (ingressTemplate imp req) = [rule] /\
    paths rule = [mkPath (path req) (name req) "http"] /\
    (tls (ingressTemplate imp req) = None <-> truthy (tlsSecret req) = false) /\
    forall ts t,
      tls (ingressTemplate imp req) = Some ts -> In t ts ->
      secretName t = show (tlsSecret req) /\
      hosts t = option_map (fun h => [h]) (rule_host rule).
Proof.
  intros H. unfold ingressTemplate. rewrite H. simpl.
  eexists. split; [done|]. split; [done|]. split.
  - by destruct (truthy (tlsSecret req)).
  - intros ts t. destruct (truthy (tlsSecret req)); [|done].
    intros [= <-] [<-|[]]. simpl. split; [done|].
    destruct (host req) as [[|c h]|]; done.
Qed.

End WithCluster.

Lemma upsertIngress_needs_port_and_path_witness :
  upsertIngress (Samples.Ingresses.calling true) Samples.Ingresses.headless [] =
    (Ok None, []).
Proof.
  apply upsertIngress_needs_port_and_path. right. reflexivity.
Defined.

Lemma upsertIngress_returns_template_witness :
  Some (ingressTemplate (Samples.Ingresses.calling false)
          Samples.Ingresses.rocker) =
  Some (mkIngress "Ingress" "extensions/v1beta1" "cloudcult/rocker"
          [mkRule (Some "emi.com") [mkPath (Some "/rocker") "rocker" "http"]]
          (Some [mkTLS "emi-com" (Some ["emi.com"])])).
Proof.
  exact (upsertIngress_returns_template (Samples.Ingresses.calling false)
           Samples.Ingresses.rocker [] ["read"; "create"] _ eq_refl).
Defined.

Lemma deleteIngress_returns_what_was_read_witness :
  (exists s1,
     readNamespacedIngress (Samples.Ingresses.calling true) "rocker"
       "cloudcult" [] =
       (Ok (mkIngress "Ingress" "extensions/v1beta1" "rocker" [] None), s1) /\
     logRetry (Samples.Ingresses.calling true)
       (deleteNamespacedIngress (Samples.Ingresses.calling true) "rocker"
          "cloudcult")
       "delete ingress cloudcult/rocker" s1 = (Ok tt, ["read"; "delete"])) /\
  (exists e,
     readNamespacedIngress (Samples.Ingresses.calling false) "rocker"
       "cloudcult" [] = (Err e, ["read"])).
Proof.
  split.
  - exact (deleteIngress_returns_what_was_read (Samples.Ingresses.calling true)
             Samples.Ingresses.rocker [] ["read"; "delete"]
             (Some (mkIngress "Ingress" "extensions/v1beta1" "rocker" [] None))
             eq_refl).
  - exact (deleteIngress_returns_what_was_read
             (Samples.Ingresses.calling false)
             Samples.Ingresses.rocker [] ["read"] None eq_refl).
Defined.

Lemma ingressTemplate_one_rule_witness :
  exists rule,
    rules (ingressTemplate (Samples.Ingresses.calling true)
             Samples.Ingresses.rocker) = [rule] /\
    paths rule = [mkPath (Some "/rocker") "rocker" "http"] /\
    (tls (ingressTemplate (Samples.Ingresses.calling true)
            Samples.Ingresses.rocker) = None <-> true = false) /\
    forall ts t,
      tls (ingressTemplate (Samples.Ingresses.calling true)
             Samples.Ingresses.rocker) = Some ts -> In t ts ->
      secretName t = "emi-com" /\
      hosts t = option_map (fun h => [h]) (rule_host rule).
Proof.
  exact (ingressTemplate_one_rule (Samples.Ingresses.calling true)
           Samples.Ingresses.rocker eq_refl).
Defined.

End IngressFacts.

(** ** The deployment goal *)

Module GoalFacts.
Import Goal.

Lemma span_spec (f : ascii -> bool) (s : string) :
  s = (span f s).1 +:+ (span f s).2 /\
  allChars f (span f s).1 = true /\
  match (span f s).2 with
  | String c _ => f c = false
  | EmptyString => True
  end.
Proof.
  induction s as [|c s (H1 & H2 & H3)]; simpl; [done|].
  destruct (f c) eqn:E; cbn [fst snd allChars].
  - rewrite E, H2. split; [|done].
    change (String c s = String c ((span f s).1 +:+ (span f s).2)).
    by rewrite <- H1.
  - done.
Qed.

Lemma span_append (f : ascii -> bool) (d : string) (c : ascii) (rest : string) :
  allChars f d = true -> f c = false ->
  span f (d +:+ String c rest) = (d, String c rest).
Proof.
  intros Hd Hc. induction d as [|x d IH]; simpl in *.
  - by rewrite Hc.
  - apply andb_true_iff in Hd as [Hx Hd]. by rewrite Hx, (IH Hd).
Qed.

Lemma isGoalEnvironment_iff (s : string) :
  isGoalEnvironment s = true <->
  exists d w,
    s = d +:+ "-" +:+ w +:+ "/" /\ d <> "" /\ w <> "" /\
    allChars isDigit d = true /\ allChars isWord w = true.
Proof.
  unfold isGoalEnvironment. split.
  - pose proof (span_spec isDigit s) as (H1 & H2 & _).
    destruct (span isDigit s) as [[|d0 d] [|c rest]]; try done.
    simpl in H1, H2. intros [Hc H]%andb_true_iff.
    apply Ascii.eqb_eq in Hc as ->.
    pose proof (span_spec isWord rest) as (H3 & H4 & _).
    destruct (span isWord rest) as [[|w0 w] [|c' [|]]]; try done.
    simpl in H3, H4. apply Ascii.eqb_eq in H as ->.
    exists (String d0 d), (String w0 w). by rewrite H1, H3.
  - intros (d & w & -> & Hd & Hw & Hdd & Hww).
    change (d +:+ "-" +:+ w +:+ "/")
      with (d +:+ String "-" (w +:+ String "/" "")).
    rewrite (span_append isDigit d "-" (w +:+ "/") Hdd eq_refl).
    destruct d as [|d0 d]; [done|]. simpl.
    rewrite (span_append isWord w "/" "" Hww eq_refl).
    by destruct w.
Qed.

Section Details.

Variable StagingEnvironment ProductionEnvironment : string.
Context {D R : Type}.
Variable noDescriptions : D.

Abbreviation label := (getEnvironmentLabel StagingEnvironment ProductionEnvironment).
Abbreviation details := (defaultDetails StagingEnvironment ProductionEnvironment noDescriptions (R := R)).

(** The label of a truthy environment is empty exactly when the
    environment has the shape of a goal environment, digits, a hyphen,
    word characters and a final slash, and is neither the staging nor
    the production environment; any other environment is shown in the
    label. *)
Theorem getEnvironmentLabel_empty_iff (env : string) :
  env <> "" ->
  (label (Some env) = "" <->
   (exists d w,
      env = d +:+ "-" +:+ w +:+ "/" /\ d <> "" /\ w <> "" /\
      allChars isDigit d = true /\ allChars isWord w = true) /\
   env <> StagingEnvironment /\ env <> ProductionEnvironment).
Proof.
  intros Henv. rewrite <- isGoalEnvironment_iff.
  unfold getEnvironmentLabel. destruct env as [|c env]; [done|].
  cbn [truthy show default id].
  destruct (isGoalEnvironment (String c env)).
  - destruct (String.eqb_spec (String c env) StagingEnvironment) as [E1|E1].
    { split; [done|]. by intros (_ & H & _). }
    destruct (String.eqb_spec (String c env) ProductionEnvironment) as [E2|E2].
    { split; [done|]. by intros (_ & _ & H). }
    done.
  - split; [done|]. by intros (H & _).
Qed.

Lemma orElse_truthy (x : option string) (c : ascii) (y : string) :
  truthy (orElse x (String c y)) = true.
Proof. unfold orElse. by destruct (truthy x) eqn:E. Qed.

Lemma orElse_kept (x : option string) (y : string) :
  truthy x = true -> orElse x y = x.
Proof. unfold orElse. by intros ->. Qed.

Lemma orElse_idempotent (x : option string) (y : string) :
  orElse (orElse x y) y = orElse x y.
Proof.
  unfold orElse. destruct (truthy x) eqn:E; [by rewrite E|].
  by destruct (truthy (Some y)).
Qed.

(** After [defaultDetails] the display name and the completed, failed
    and waiting-for-approval descriptions are all truthy; the
    environment and the remaining properties are as given. *)
Theorem defaultDetails_fills_descriptions (d : FulfillableGoalDetails D R) :
  environment (details d) = environment d /\
  otherDetails (details d) = otherDetails d /\
  truthy (displayName (details d)) = true /\
  exists ds,
    descriptions (details d) = Some ds /\
    truthy (completed ds) = true /\ truthy (failed ds) = true /\
    truthy (waitingForApproval ds) = true /\
    otherDescriptions ds =
      match descriptions d with
      | Some d0 => otherDescriptions d0
      | None => noDescriptions
      end.
Proof.
  unfold defaultDetails. simpl.
  split; [done|]. split; [done|]. split; [apply orElse_truthy|].
  eexists. split; [done|]. simpl.
  split; [apply orElse_truthy|]. split; [apply orElse_truthy|].
  split; [apply orElse_truthy|]. by destruct (descriptions d).
Qed.

(** [defaultDetails] keeps every name and description that is given
    and truthy, and applying it to its own result changes nothing. *)
Theorem defaultDetails_idempotent (d : FulfillableGoalDetails D R) :
  details (details d) = details d /\
  (truthy (displayName d) = true ->
   displayName (details d) = displayName d) /\
  forall d0,
    descriptions d = Some d0 ->
    truthy (completed d0) = true -> truthy (failed d0) = true ->
    truthy (waitingForApproval d0) = true ->
    descriptions (details d) = Some d0.
Proof.
  split; [|split].
  - unfold defaultDetails. simpl. by rewrite !orElse_idempotent.
  - intros H. unfold defaultDetails. simpl. by apply orElse_kept.
  - intros [c f w o] Hd Hc Hf Hw. unfold defaultDetails. rewrite Hd.
    simpl in *. by rewrite !orElse_kept.
Qed.

End Details.

(** [defaultEnvironment] returns the first truthy value among the four
    places in their order, and undefined when none is truthy; it never
    returns the empty string. *)
Theorem defaultEnvironment_first_truthy (src : EnvironmentSources) :
  defaultEnvironment src =
    match List.find truthy (environmentCandidates src) with
    | Some e => e
    | None => None
    end /\
  defaultEnvironment src <> Some "".
Proof.
  unfold defaultEnvironment, environmentCandidates.
  destruct src as [[[[|c0 e0]|]|] [[|c1 e1]|] [[|c2 e2]|] [[[[|c3 e3]|]|]|]];
    simpl; by split.
Qed.

Lemma getEnvironmentLabel_empty_iff_witness :
  getEnvironmentLabel "1-staging/" "2-prod/" (Some "0-code/") = "".
Proof.
  apply (getEnvironmentLabel_empty_iff "1-staging/" "2-prod/" "0-code/");
    [done|].
  split; [|split; done].
  exists "0", "code". repeat split; done.
Defined.

End GoalFacts.
